(** * The openMSX Scheduler: synchronization points and the advance-to-limit step

    A shallow embedding of [src/Scheduler.hh] and of the queue discipline the
    specification gives for the member functions whose bodies live in
    [Scheduler.cc].  The first half of the file holds the definitions, the
    second half the lemmas and theorems. *)

From Stdlib Require Import ZArith List Lia Bool Sorted PeanoNat.
Import ListNotations.
Local Open Scope Z_scope.

(* ================================================================== *)
(** ** Results of a call                                               *)
(* ================================================================== *)

(** A member function either returns normally, dies on a failed
    [assert], runs into C++ undefined behaviour ([front()] of an empty
    vector), or, in the model only, uses up the step budget of the
    drain loop. *)
Inductive outcome (A : Type) : Type :=
| Done (a : A)
| AssertionFailed
| Undefined
| OutOfFuel.

Arguments Done {A} a.
Arguments AssertionFailed {A}.
Arguments Undefined {A}.
Arguments OutOfFuel {A}.

Definition bind {A B : Type} (m : outcome A) (k : A -> outcome B) : outcome B :=
  match m with
  | Done a => k a
  | AssertionFailed => AssertionFailed
  | Undefined => Undefined
  | OutOfFuel => OutOfFuel
  end.

Notation "x <- m ;; k" := (bind m (fun x => k))
  (at level 61, m at next level, right associativity).

(* ================================================================== *)
(** ** Data model ([Scheduler.hh], lines 16-44 and 120-127)            *)
(* ================================================================== *)

(** Modelled from the spec: [EmuTime.hh] is not among the sources.  The
    specification calls an instant an integer-tick timestamp with a total
    order; only the order is used here. *)
Definition EmuTime : Type := Z.

(** A [Schedulable*] and an [MSXCPU*]: objects are told apart by address. *)
Definition Schedulable : Type := nat.
Definition MSXCPU : Type := nat.

(** [class SynchronizationPoint]: the three members, named after their
    accessors. *)
Record SynchronizationPoint : Type := mkSynchronizationPoint
  { getTime : EmuTime;
    getDevice : Schedulable;
    getUserData : Z }.

(** What can be observed of a callback: [executeUntil] is entered for a
    point, and later it returns. *)
Inductive Event : Type :=
| Begin (sp : SynchronizationPoint)
| End (sp : SynchronizationPoint).

(** [class Scheduler].  [syncPoints], [scheduleTime], [cpu] and
    [scheduleInProgress] are the four data members.  [trace] and [events]
    are ghost state.  [trace] is the [executeUntil] calls made so far,
    oldest first, each recorded as the point that was handed to the
    device; [events] also records, in one sequence with the entries, the
    moment each of these calls returns. *)
Record Scheduler : Type := mkScheduler
  { syncPoints : list SynchronizationPoint;
    scheduleTime : EmuTime;
    cpu : option MSXCPU;
    scheduleInProgress : bool;
    trace : list SynchronizationPoint;
    events : list Event }.

Definition withSyncPoints (q : list SynchronizationPoint) (s : Scheduler) : Scheduler :=
  {| syncPoints := q; scheduleTime := scheduleTime s; cpu := cpu s;
     scheduleInProgress := scheduleInProgress s; trace := trace s;
     events := events s |}.

Definition withScheduleTime (t : EmuTime) (s : Scheduler) : Scheduler :=
  {| syncPoints := syncPoints s; scheduleTime := t; cpu := cpu s;
     scheduleInProgress := scheduleInProgress s; trace := trace s;
     events := events s |}.

Definition withInProgress (b : bool) (s : Scheduler) : Scheduler :=
  {| syncPoints := syncPoints s; scheduleTime := scheduleTime s; cpu := cpu s;
     scheduleInProgress := b; trace := trace s; events := events s |}.

Definition withCPU (c : option MSXCPU) (s : Scheduler) : Scheduler :=
  {| syncPoints := syncPoints s; scheduleTime := scheduleTime s; cpu := c;
     scheduleInProgress := scheduleInProgress s; trace := trace s;
     events := events s |}.

(* ================================================================== *)
(** ** The inline member functions of [Scheduler.hh]                   *)
(* ================================================================== *)

(** [void setCPU(MSXCPU* cpu_) { cpu = cpu_; }] *)
Definition setCPU (cpu_ : option MSXCPU) (s : Scheduler) : Scheduler :=
  withCPU cpu_ s.

(** [return syncPoints.front().getTime();]  A [const] member: it yields
    a value and has no state to return.  [front()] of an empty vector is
    undefined behaviour. *)
Definition getNext (s : Scheduler) : outcome EmuTime :=
  match syncPoints s with
  | [] => Undefined
  | sp :: _ => Done (getTime sp)
  end.

Section Inline.

(** [scheduleHelper] is declared in the header and defined elsewhere; the
    inline code is embedded over an arbitrary one. *)
Variable scheduleHelper : EmuTime -> Scheduler -> outcome Scheduler.

(** [if (unlikely(limit >= getNext())) { scheduleHelper(limit); }
     scheduleTime = limit;]  ([unlikely] is a branch-prediction hint.) *)
Definition schedule (limit : EmuTime) (s : Scheduler) : outcome Scheduler :=
  next <- getNext s ;;
  s1 <- (if limit >=? next then scheduleHelper limit s else Done s) ;;
  Done (withScheduleTime limit s1).

End Inline.

(* ================================================================== *)
(** ** The member functions defined in [Scheduler.cc]                  *)
(* ================================================================== *)

(** Modelled from the spec: [Scheduler.cc], with the bodies of
    [LessSyncPoint::operator()], [FindSchedulable::operator()],
    [setSyncPoint], [removeSyncPoint], [removeSyncPoints],
    [pendingSyncPoint], [getCurrentTime] and [scheduleHelper], is not
    among the sources; the header gives their signatures and doc
    comments.  The two overloads of [LessSyncPoint] compare an instant
    with a point, in either order, by the point's time (the queue is
    "keyed by time"). *)
Definition LessSyncPoint_time_sp (time : EmuTime) (sp : SynchronizationPoint) : bool :=
  time <? getTime sp.

Definition LessSyncPoint_sp_time (sp : SynchronizationPoint) (time : EmuTime) : bool :=
  getTime sp <? time.

(** Modelled from the spec: [FindSchedulable] (body missing) holds a device
    and recognises the points of that device. *)
Definition FindSchedulable (schedulable : Schedulable) (sp : SynchronizationPoint) : bool :=
  Nat.eqb (getDevice sp) schedulable.

(** The test [removeSyncPoint] and [pendingSyncPoint] search with: same
    device, same user data. *)
Definition matches (device : Schedulable) (userdata : Z) (sp : SynchronizationPoint) : bool :=
  Nat.eqb (getDevice sp) device && (getUserData sp =? userdata).

(** Modelled from the spec: the place of a new point in the queue
    ([setSyncPoint], body missing).  The sequence is ordered by time (the
    header: "SyncPoints are ordered: smaller EmuTime -> scheduled
    earlier"; the spec: "a heap-ordered sequence keyed by time", of which
    the earliest point is popped), and points with equal time fire in
    registration order (the spec's tie-break invariant): the new point
    goes in front of the first pending point that is strictly later, found
    with the (instant, point) overload of [LessSyncPoint].  The header
    declares comparisons of an instant with a point only, which is what a
    search for the place of an instant in an ordered vector takes; it
    declares no comparison of two points.  Where a point goes among
    pending points of its own time is a choice of this model: the header
    declares both overloads, and the spec's section 9 leaves the tie order
    of a binary heap open.  The theorems below use that the queue is in
    time order; none rests on where a new point lands among the pending
    points of its own time. *)
Fixpoint enqueue (sp : SynchronizationPoint) (q : list SynchronizationPoint)
  : list SynchronizationPoint :=
  match q with
  | [] => [sp]
  | p :: q' =>
      if LessSyncPoint_time_sp (getTime sp) p then sp :: p :: q'
      else p :: enqueue sp q'
  end.

(** Modelled from the spec: [setSyncPoint] (body missing).  "Precondition:
    time must not be earlier than the Scheduler's current time ...
    signaled as a fatal assertion"; then the point is registered. *)
Definition setSyncPoint (timestamp : EmuTime) (device : Schedulable) (userData : Z)
    (s : Scheduler) : outcome Scheduler :=
  if timestamp <? scheduleTime s then AssertionFailed
  else Done (withSyncPoints
               (enqueue (mkSynchronizationPoint timestamp device userData)
                        (syncPoints s)) s).

(** Linear search from the front, removal of the first hit; the other
    points stay in their order (a removal that re-heapifies could change
    the order of points with equal time, which nothing below relies on
    apart from the sequence that [removeSyncPoint] is stated to leave). *)
Fixpoint eraseFirst (f : SynchronizationPoint -> bool) (q : list SynchronizationPoint)
  : list SynchronizationPoint :=
  match q with
  | [] => []
  | p :: q' => if f p then q' else p :: eraseFirst f q'
  end.

(** Modelled from the spec: [removeSyncPoint] (body missing) "cancels one
    matching point", by "linear search plus removal" of an interior
    element; a queue without a match is left as it is. *)
Definition removeSyncPoint (device : Schedulable) (userdata : Z) (s : Scheduler) : Scheduler :=
  withSyncPoints (eraseFirst (matches device userdata) (syncPoints s)) s.

(** Modelled from the spec: [removeSyncPoints] (body missing) "cancels
    every point owned by device". *)
Definition removeSyncPoints (device : Schedulable) (s : Scheduler) : Scheduler :=
  withSyncPoints (filter (fun sp => negb (FindSchedulable device sp)) (syncPoints s)) s.

(** Modelled from the spec: [pendingSyncPoint] (body missing), "existence
    query, no mutation". *)
Definition pendingSyncPoint (device : Schedulable) (userdata : Z) (s : Scheduler) : bool :=
  existsb (matches device userdata) (syncPoints s).

(** Modelled from the spec: [getCurrentTime] (body missing), "the latest
    instant reached so far". *)
Definition getCurrentTime (s : Scheduler) : EmuTime := scheduleTime s.

(** What a device may ask of the Scheduler from inside [executeUntil]
    (spec 4.2 and the re-entrancy rule of 4.3): register, cancel, and call
    [schedule] again. *)
Inductive Call : Type :=
| CallSetSyncPoint (timestamp : EmuTime) (device : Schedulable) (userData : Z)
| CallRemoveSyncPoint (device : Schedulable) (userdata : Z)
| CallRemoveSyncPoints (device : Schedulable)
| CallSchedule (limit : EmuTime).

(** [Schedulable::executeUntil(time, userData)] of each device: the calls
    it makes back into the Scheduler, in order, as a function of the
    Scheduler it finds on entry (the ghost [trace] included, so a device
    may answer differently every time). *)
Definition Devices : Type :=
  Schedulable -> EmuTime -> Z -> Scheduler -> list Call.

Section Calls.

Variable scheduleHelper : EmuTime -> Scheduler -> outcome Scheduler.

Definition perform (c : Call) (s : Scheduler) : outcome Scheduler :=
  match c with
  | CallSetSyncPoint t d u => setSyncPoint t d u s
  | CallRemoveSyncPoint d u => Done (removeSyncPoint d u s)
  | CallRemoveSyncPoints d => Done (removeSyncPoints d s)
  | CallSchedule limit => schedule scheduleHelper limit s
  end.

Fixpoint performAll (cs : list Call) (s : Scheduler) : outcome Scheduler :=
  match cs with
  | [] => Done s
  | c :: cs' => s1 <- perform c s ;; performAll cs' s1
  end.

End Calls.

(** Modelled from the spec: the guard of [scheduleHelper] (body missing).
    "A simple boolean scheduling-in-progress flag is used to detect and
    safely short-circuit the nested call path": a call that finds the flag
    set returns at once; otherwise the flag is set for the duration of the
    drain [loop] and cleared on exit. *)
Definition guarded (loop : EmuTime -> Scheduler -> outcome Scheduler)
    (limit : EmuTime) (s : Scheduler) : outcome Scheduler :=
  if scheduleInProgress s then Done s
  else s1 <- loop limit (withInProgress true s) ;;
       Done (withInProgress false s1).

(** The state in which [executeUntil] of the front point [sp] is entered:
    the point is popped, current time is the point's time, and the call is
    on record. *)
Definition fire (sp : SynchronizationPoint) (rest : list SynchronizationPoint)
    (s : Scheduler) : Scheduler :=
  {| syncPoints := rest; scheduleTime := getTime sp; cpu := cpu s;
     scheduleInProgress := scheduleInProgress s; trace := trace s ++ [sp];
     events := events s ++ [Begin sp] |}.

(** The state in which the drain goes on once [executeUntil] of [sp] has
    returned: the return is on record, nothing else changes. *)
Definition finish (sp : SynchronizationPoint) (s : Scheduler) : Scheduler :=
  {| syncPoints := syncPoints s; scheduleTime := scheduleTime s; cpu := cpu s;
     scheduleInProgress := scheduleInProgress s; trace := trace s;
     events := events s ++ [End sp] |}.

Section Drain.

Variable executeUntil : Devices.

(** Modelled from the spec: the drain loop of [scheduleHelper] (body
    missing).  "Repeatedly pop the earliest point, set current time to
    that point's time, and invoke its device's executeUntil", with
    exactly the registered time.  The spec words the bound both ways:
    section 4.3 ends the drain at a point "at or beyond limit", section 8
    has a point whose time equals the limit fire ("inclusive boundary").
    The header's guard [limit >= getNext()] enters the helper at equality,
    which only the second reading accounts for, so a point is due when its
    time is not beyond [limit].  An empty queue ends the drain.  [fuel]
    bounds the number of iterations; the calls a device makes run against
    the guarded helper itself. *)
Fixpoint drain (fuel : nat) (limit : EmuTime) (s : Scheduler) : outcome Scheduler :=
  match fuel with
  | O => OutOfFuel
  | S fuel' =>
      match syncPoints s with
      | [] => Done s
      | sp :: rest =>
          if LessSyncPoint_time_sp limit sp then Done s
          else
            let s1 := fire sp rest s in
            s2 <- performAll (guarded (drain fuel'))
                    (executeUntil (getDevice sp) (getTime sp) (getUserData sp) s1) s1 ;;
            drain fuel' limit (finish sp s2)
      end
  end.

(** [void Scheduler::scheduleHelper(const EmuTime& limit)] *)
Definition scheduleHelper (fuel : nat) : EmuTime -> Scheduler -> outcome Scheduler :=
  guarded (drain fuel).

(** The public [schedule] of a Scheduler whose devices are
    [executeUntil]: the inline code over the helper above. *)
Definition run_schedule (fuel : nat) (limit : EmuTime) (s : Scheduler) : outcome Scheduler :=
  schedule (scheduleHelper fuel) limit s.

End Drain.

(** Devices that never call back into the Scheduler. *)
Definition passive : Devices := fun _ _ _ _ => [].

(** The calls of one callback, run in the state [s1] in which it is
    entered.  They are made while the flag is set, so the loop behind the
    guard is not reached and any loop can stand for it. *)
Definition inCallback (executeUntil : Devices) (sp : SynchronizationPoint)
    (s1 : Scheduler) : outcome Scheduler :=
  performAll (guarded (fun _ _ => OutOfFuel))
    (executeUntil (getDevice sp) (getTime sp) (getUserData sp) s1) s1.

(** A finished drain to [limit], as a relation: from [s] the callbacks for
    the points [fired] are made in this order, and the loop is left in
    [s'].  ([drain] computes it, given enough fuel.) *)
Inductive Drained (executeUntil : Devices) (limit : EmuTime)
  : Scheduler -> list SynchronizationPoint -> Scheduler -> Prop :=
| Drained_stop (s : Scheduler) :
    (forall sp rest, syncPoints s = sp :: rest -> limit < getTime sp) ->
    Drained executeUntil limit s [] s
| Drained_fire (s : Scheduler) (sp : SynchronizationPoint)
    (rest : list SynchronizationPoint) (s2 : Scheduler)
    (fired : list SynchronizationPoint) (s' : Scheduler) :
    syncPoints s = sp :: rest ->
    getTime sp <= limit ->
    inCallback executeUntil sp (fire sp rest s) = Done s2 ->
    Drained executeUntil limit (finish sp s2) fired s' ->
    Drained executeUntil limit s (sp :: fired) s'.

(* ================================================================== *)
(** ** Invariants and vocabulary of the statements                     *)
(* ================================================================== *)

(** The vector read as an implicit binary heap ("Vector used as heap",
    header line 120): no element is earlier than its parent. *)
Definition heap_ordered (q : list SynchronizationPoint) : Prop :=
  forall (i : nat) (parent child : SynchronizationPoint),
    (0 < i)%nat ->
    nth_error q i = Some child ->
    nth_error q ((i - 1) / 2) = Some parent ->
    getTime parent <= getTime child.

(** The queue in time order, ties in any order. *)
Definition notLater (p q : SynchronizationPoint) : Prop := getTime p <= getTime q.

Definition queue_ok (q : list SynchronizationPoint) : Prop := StronglySorted notLater q.

(** An operation that, when it returns, leaves a time-ordered queue
    time-ordered. *)
Definition keeps_order (f : Scheduler -> outcome Scheduler) : Prop :=
  forall s s', f s = Done s' -> queue_ok (syncPoints s) -> queue_ok (syncPoints s').

(** [p] occurs in [l] somewhere in front of an occurrence of [q]. *)
Definition before (p q : SynchronizationPoint) (l : list SynchronizationPoint) : Prop :=
  exists l1 l2 l3, l = l1 ++ p :: l2 ++ q :: l3.

(** The points of a queue that are due at [limit], and the others. *)
Definition due (limit : EmuTime) (q : list SynchronizationPoint) : list SynchronizationPoint :=
  filter (fun sp => negb (LessSyncPoint_time_sp limit sp)) q.

Definition beyond (limit : EmuTime) (q : list SynchronizationPoint) : list SynchronizationPoint :=
  filter (fun sp => LessSyncPoint_time_sp limit sp) q.

Arguments due : simpl never.
Arguments beyond : simpl never.

(** Calls of a device that leave the set of points due at [limit] alone:
    it registers only beyond [limit], cancels nothing, and, when [nest]
    is set, may call [schedule] again with a limit that is not larger. *)
Definition tame (nest : bool) (limit : EmuTime) (c : Call) : bool :=
  match c with
  | CallSetSyncPoint t _ _ => limit <? t
  | CallRemoveSyncPoint _ _ => false
  | CallRemoveSyncPoints _ => false
  | CallSchedule l => nest && (l <=? limit)
  end.

(** Every callback for a time up to [limit] makes tame calls only. *)
Definition tame_devices (nest : bool) (limit : EmuTime) (executeUntil : Devices) : Prop :=
  forall d t u s c, t <= limit -> In c (executeUntil d t u s) -> tame nest limit c = true.

(** The shape of the Scheduler between two callbacks of a drain to
    [limit]: the flag is set, and the queue is the points still due
    followed by the points beyond the limit (of which there is one if a
    device may call [schedule] again, which reads the front). *)
Definition draining (nest : bool) (limit : EmuTime)
    (dueq bey : list SynchronizationPoint) (s : Scheduler) : Prop :=
  scheduleInProgress s = true /\
  syncPoints s = dueq ++ bey /\
  Forall (fun sp => getTime sp <= limit) dueq /\
  Forall (fun sp => limit < getTime sp) bey /\
  (nest = true -> bey <> []).

(** The events of a run in which [executeUntil] is called for the points
    of [fired], one call after the other, each returning before the next
    is made. *)
Definition callbacks (fired : list SynchronizationPoint) : list Event :=
  flat_map (fun sp => [Begin sp; End sp]) fired.

(** A call that does not cancel the point [sp]. *)
Definition keeps (sp : SynchronizationPoint) (c : Call) : bool :=
  match c with
  | CallSetSyncPoint _ _ _ => true
  | CallRemoveSyncPoint d u => negb (matches d u sp)
  | CallRemoveSyncPoints d => negb (FindSchedulable d sp)
  | CallSchedule _ => true
  end.

(** No callback ever cancels [sp]. *)
Definition keeps_devices (sp : SynchronizationPoint) (executeUntil : Devices) : Prop :=
  forall d t u s c, In c (executeUntil d t u s) -> keeps sp c = true.

(** A call made from the callback for time [t] that does not register a
    point for a time before [t]. *)
Definition punctual (t : EmuTime) (c : Call) : bool :=
  match c with
  | CallSetSyncPoint t' _ _ => t <=? t'
  | _ => true
  end.

Definition punctual_devices (executeUntil : Devices) : Prop :=
  forall d t u s c, In c (executeUntil d t u s) -> punctual t c = true.

(** A call made from the callback for time [t] that registers only for a
    strictly later time, or cancels; it does not call [schedule] again. *)
Definition progressive (t : EmuTime) (c : Call) : bool :=
  match c with
  | CallSetSyncPoint t' _ _ => t <? t'
  | CallRemoveSyncPoint _ _ => true
  | CallRemoveSyncPoints _ => true
  | CallSchedule _ => false
  end.

Definition progressive_devices (executeUntil : Devices) : Prop :=
  forall d t u s c, In c (executeUntil d t u s) -> progressive t c = true.

(** The number of pending points registered for time [t]. *)
Definition pendingAt (t : EmuTime) (q : list SynchronizationPoint) : nat :=
  length (filter (fun sp => getTime sp =? t) q).

(* ================================================================== *)
(** ** Concrete schedulers used as test inputs                         *)
(* ================================================================== *)

(** The scenario of the spec's section 8: device A (address 1) holds points
    at 10 (tag 1) and 30 (tag 2), device B (address 2) one at 10. *)
Definition pointA10 : SynchronizationPoint := mkSynchronizationPoint 10 1%nat 1.
Definition pointA30 : SynchronizationPoint := mkSynchronizationPoint 30 1%nat 2.
Definition pointB10 : SynchronizationPoint := mkSynchronizationPoint 10 2%nat 0.

Definition idle (q : list SynchronizationPoint) (now : EmuTime) : Scheduler :=
  {| syncPoints := q; scheduleTime := now; cpu := None;
     scheduleInProgress := false; trace := []; events := [] |}.

Definition scenario : Scheduler := idle [pointB10; pointA10; pointA30] 0.

(** A device whose callback re-enters [schedule] with a smaller limit, one
    tick before the time it was called for, before registering its next
    point at [again]. *)
Definition reentrant (again : EmuTime) : Devices :=
  fun d t u _ => [CallSchedule (t - 1); CallSetSyncPoint again d u].

(** Three registrations, the latest point first and the earliest last. *)
Definition reverseCalls : list Call :=
  [CallSetSyncPoint 30 1%nat 2; CallSetSyncPoint 20 3%nat 0; CallSetSyncPoint 10 2%nat 0].

(** B's callback cancels the point that A holds with tag 1. *)
Definition canceller : Devices :=
  fun d _ _ _ => if Nat.eqb d 2 then [CallRemoveSyncPoint 1%nat 1] else [].

(** A periodic device: each callback registers the next one [period] later
    (and B, when called, also cancels what A holds with tag 2). *)
Definition timer (period : EmuTime) : Devices :=
  fun d t u _ =>
    if Nat.eqb d 2 then [CallSetSyncPoint (t + period) d u; CallRemoveSyncPoint 1%nat 2]
    else [CallSetSyncPoint (t + period) d u].

(** A device whose callback calls [schedule] again, with limit [outer],
    then registers its next point at [again]. *)
Definition nester (outer again : EmuTime) : Devices :=
  fun d _ u _ => [CallSchedule outer; CallSetSyncPoint again d u].

(** Points at 10, 20 and 30, with a far point behind them. *)
Definition pointC20 : SynchronizationPoint := mkSynchronizationPoint 20 3%nat 0.
Definition pointFar : SynchronizationPoint := mkSynchronizationPoint 1000 9%nat 0.
Definition ladder : Scheduler := idle [pointB10; pointC20; pointA30; pointFar] 0.

(** A helper that aborts as soon as it is entered: a call of [schedule]
    over it that returns has not entered the helper. *)
Definition trapHelper : EmuTime -> Scheduler -> outcome Scheduler :=
  fun _ _ => AssertionFailed.

(* ================================================================== *)
(** * Lemmas and theorems                                              *)
(* ================================================================== *)

(** ** The outcome monad *)

Lemma bind_Done_inv {A B : Type} (m : outcome A) (k : A -> outcome B) (b : B) :
  bind m k = Done b -> exists a, m = Done a /\ k a = Done b.
Proof.
  destruct m as [a| | |]; simpl; intros H; try discriminate.
  exists a; split; [reflexivity | exact H].
Qed.

(** ** The inline code: [getNext] and [schedule] *)

Lemma getNext_front (s : Scheduler) (sp : SynchronizationPoint) (rest : list SynchronizationPoint) :
  syncPoints s = sp :: rest -> getNext s = Done (getTime sp).
Proof. unfold getNext; intros ->; reflexivity. Qed.

Lemma getNext_empty (s : Scheduler) : syncPoints s = [] -> getNext s = Undefined.
Proof. unfold getNext; intros ->; reflexivity. Qed.

Lemma schedule_fast (helper : EmuTime -> Scheduler -> outcome Scheduler)
    (limit next : EmuTime) (s : Scheduler) :
  getNext s = Done next -> limit < next ->
  schedule helper limit s = Done (withScheduleTime limit s).
Proof.
  intros Hn Hlt. unfold schedule. rewrite Hn. simpl.
  destruct (Z.geb_spec limit next) as [Hge | _]; [lia | reflexivity].
Qed.

Lemma schedule_slow (helper : EmuTime -> Scheduler -> outcome Scheduler)
    (limit next : EmuTime) (s : Scheduler) :
  getNext s = Done next -> next <= limit ->
  schedule helper limit s = (s1 <- helper limit s ;; Done (withScheduleTime limit s1)).
Proof.
  intros Hn Hle. unfold schedule. rewrite Hn. simpl.
  destruct (Z.geb_spec limit next) as [_ | Hlt]; [reflexivity | lia].
Qed.

Lemma schedule_empty (helper : EmuTime -> Scheduler -> outcome Scheduler)
    (limit : EmuTime) (s : Scheduler) :
  syncPoints s = [] -> schedule helper limit s = Undefined.
Proof. intros H. unfold schedule. rewrite (getNext_empty s H). reflexivity. Qed.

(** C1.  When [limit] is strictly earlier than every pending point (so
    strictly earlier than the earliest one), [schedule limit] returns,
    whatever [scheduleHelper] is; current time is then exactly [limit], no
    [executeUntil] call has been added to the trace, and the queue and the
    in-progress flag are what they were. *)
Theorem schedule_before_earliest
    (helper : EmuTime -> Scheduler -> outcome Scheduler)
    (limit : EmuTime) (s : Scheduler) :
  syncPoints s <> [] ->
  (forall sp, In sp (syncPoints s) -> limit < getTime sp) ->
  exists s',
    schedule helper limit s = Done s' /\
    scheduleTime s' = limit /\
    trace s' = trace s /\
    syncPoints s' = syncPoints s /\
    scheduleInProgress s' = scheduleInProgress s.
Proof.
  intros Hne Hall.
  destruct (syncPoints s) as [|sp rest] eqn:Hq; [contradiction|].
  exists (withScheduleTime limit s). split.
  - apply (schedule_fast helper limit (getTime sp)).
    + apply (getNext_front s sp rest Hq).
    + apply Hall. left; reflexivity.
  - simpl. rewrite Hq. repeat split; reflexivity.
Qed.

Lemma schedule_before_earliest_witness :
  exists s',
    schedule trapHelper 9 scenario = Done s' /\
    scheduleTime s' = 9 /\
    trace s' = trace scenario /\
    syncPoints s' = syncPoints scenario /\
    scheduleInProgress s' = scheduleInProgress scenario.
Proof.
  apply (schedule_before_earliest trapHelper 9 scenario).
  - simpl; discriminate.
  - simpl; intros sp [<- | [<- | [<- | []]]]; simpl; lia.
Defined.

(** C3, as stated, fails at exact equality.  In the scenario the earliest
    point is at 10, so it is "at or beyond" the limit 10; yet [schedule 10]
    enters [scheduleHelper] whatever that helper is, and with the drain of
    the model two callbacks run and two points leave the queue. *)
Lemma schedule_at_earliest_not_fast :
  (forall sp, In sp (syncPoints scenario) -> 10 <= getTime sp) /\
  (forall helper,
     schedule helper 10 scenario =
     (s1 <- helper 10 scenario ;; Done (withScheduleTime 10 s1))) /\
  schedule trapHelper 10 scenario <> Done (withScheduleTime 10 scenario) /\
  exists s',
    run_schedule passive 3 10 scenario = Done s' /\
    trace s' = [pointB10; pointA10] /\
    syncPoints s' = [pointA30].
Proof.
  split; [|split; [|split]].
  - simpl; intros sp [<- | [<- | [<- | []]]]; simpl; lia.
  - intros helper. reflexivity.
  - discriminate.
  - eexists. split; [reflexivity | split; reflexivity].
Qed.

(** C3, amended.  The guard of [schedule] is [limit >= getNext()]: the fast
    path (record [limit], nothing else, [scheduleHelper] not entered) is
    taken exactly when the earliest pending point is strictly beyond
    [limit]; when it is at [limit] or earlier the helper is entered first
    and [limit] is recorded on its return. *)
Theorem schedule_path_by_guard
    (helper : EmuTime -> Scheduler -> outcome Scheduler)
    (limit next : EmuTime) (s : Scheduler) :
  getNext s = Done next ->
  (limit < next -> schedule helper limit s = Done (withScheduleTime limit s)) /\
  (next <= limit ->
   schedule helper limit s = (s1 <- helper limit s ;; Done (withScheduleTime limit s1))).
Proof.
  intros Hn. split; intros H.
  - exact (schedule_fast helper limit next s Hn H).
  - exact (schedule_slow helper limit next s Hn H).
Qed.

Lemma schedule_path_by_guard_witness :
  getNext scenario = Done 10 /\
  (9 < 10 -> schedule trapHelper 9 scenario = Done (withScheduleTime 9 scenario)) /\
  (10 <= 9 ->
   schedule trapHelper 9 scenario =
   (s1 <- trapHelper 9 scenario ;; Done (withScheduleTime 9 s1))).
Proof.
  split; [reflexivity|].
  apply (schedule_path_by_guard trapHelper 9 10 scenario). reflexivity.
Defined.

(** C10.  The assignment [scheduleTime = limit] is unconditional: whenever
    the queue is not empty and [scheduleHelper], if the guard enters it,
    returns, [schedule limit] returns with current time exactly [limit];
    nothing compares [limit] with the time reached before, so a smaller
    [limit] moves current time backwards. *)
Theorem schedule_records_limit
    (helper : EmuTime -> Scheduler -> outcome Scheduler)
    (limit next : EmuTime) (s : Scheduler) :
  getNext s = Done next ->
  (next <= limit -> exists s1, helper limit s = Done s1) ->
  exists s',
    schedule helper limit s = Done s' /\
    scheduleTime s' = limit /\
    getCurrentTime s' = limit /\
    (limit < scheduleTime s -> scheduleTime s' < scheduleTime s).
Proof.
  intros Hn Hhelper.
  destruct (Z.lt_ge_cases limit next) as [Hlt | Hge].
  - exists (withScheduleTime limit s).
    rewrite (schedule_fast helper limit next s Hn Hlt).
    repeat split; simpl; auto.
  - destruct (Hhelper Hge) as [s1 Hs1].
    exists (withScheduleTime limit s1).
    rewrite (schedule_slow helper limit next s Hn Hge), Hs1.
    repeat split; simpl; auto.
Qed.

Lemma schedule_records_limit_witness :
  scheduleTime (idle [pointA30] 22) = 22 /\
  exists s',
    schedule trapHelper 5 (idle [pointA30] 22) = Done s' /\
    scheduleTime s' = 5 /\
    getCurrentTime s' = 5 /\
    (5 < scheduleTime (idle [pointA30] 22) -> scheduleTime s' < scheduleTime (idle [pointA30] 22)).
Proof.
  split; [reflexivity|].
  apply (schedule_records_limit trapHelper 5 30 (idle [pointA30] 22)).
  - reflexivity.
  - intros H; exfalso; lia.
Defined.

(** ** The front of a heap-ordered vector *)

Lemma heap_front_le (q : list SynchronizationPoint) (front : SynchronizationPoint) :
  heap_ordered q ->
  nth_error q 0 = Some front ->
  forall (i : nat) (sp : SynchronizationPoint),
    nth_error q i = Some sp -> getTime front <= getTime sp.
Proof.
  intros Hheap Hfront i.
  induction i as [i IH] using (well_founded_induction Nat.lt_wf_0).
  intros sp Hi.
  destruct i as [|i'].
  - rewrite Hfront in Hi. injection Hi as <-. lia.
  - assert (Hlt : ((S i' - 1) / 2 < S i')%nat).
    { apply Nat.Div0.div_lt_upper_bound; lia. }
    assert (Hlen : (S i' < length q)%nat).
    { apply nth_error_Some. rewrite Hi. discriminate. }
    destruct (nth_error q ((S i' - 1) / 2)) as [parent|] eqn:Hp.
    + apply Z.le_trans with (getTime parent).
      * exact (IH _ Hlt parent Hp).
      * apply (Hheap (S i') parent sp); [lia | exact Hi | exact Hp].
    + apply nth_error_None in Hp. lia.
Qed.

(** C8.  On an empty queue [getNext] is undefined behaviour.  On a
    non-empty queue that is heap-ordered by time it returns, as a value
    and without a state to change, the time of a pending point that no
    pending point precedes. *)
Theorem getNext_earliest (s : Scheduler) :
  (syncPoints s = [] -> getNext s = Undefined) /\
  (syncPoints s <> [] ->
   heap_ordered (syncPoints s) ->
   exists sp,
     In sp (syncPoints s) /\
     getNext s = Done (getTime sp) /\
     forall p, In p (syncPoints s) -> getTime sp <= getTime p).
Proof.
  split.
  - apply getNext_empty.
  - intros Hne Hheap.
    destruct (syncPoints s) as [|sp rest] eqn:Hq; [contradiction|].
    exists sp. split; [left; reflexivity|]. split.
    + apply (getNext_front s sp rest Hq).
    + intros p Hp. apply In_nth_error in Hp. destruct Hp as [i Hi].
      apply (heap_front_le (sp :: rest) sp Hheap eq_refl i p Hi).
Qed.

Lemma heap_example : heap_ordered [pointB10; pointA30; pointA10].
Proof.
  intros i parent child Hpos Hc Hp.
  destruct i as [|[|[|i]]]; simpl in Hc, Hp.
  - lia.
  - injection Hc as <-. injection Hp as <-. simpl; lia.
  - injection Hc as <-. injection Hp as <-. simpl; lia.
  - destruct i; discriminate.
Defined.

Lemma getNext_earliest_witness :
  exists sp,
    In sp [pointB10; pointA30; pointA10] /\
    getNext (idle [pointB10; pointA30; pointA10] 0) = Done (getTime sp) /\
    forall p, In p [pointB10; pointA30; pointA10] -> getTime sp <= getTime p.
Proof.
  apply (proj2 (getNext_earliest (idle [pointB10; pointA30; pointA10] 0))).
  - simpl; discriminate.
  - exact heap_example.
Defined.

(** ** The queue as a time-ordered sequence *)

Lemma queue_ok_inv (p : SynchronizationPoint) (q : list SynchronizationPoint) :
  queue_ok (p :: q) -> queue_ok q /\ Forall (notLater p) q.
Proof. intros H. inversion H; subst. split; assumption. Qed.

Lemma queue_ok_cons (p : SynchronizationPoint) (q : list SynchronizationPoint) :
  queue_ok q -> Forall (notLater p) q -> queue_ok (p :: q).
Proof. intros Hq Hall. constructor; assumption. Qed.

Lemma queue_ok_heap (q : list SynchronizationPoint) : queue_ok q -> heap_ordered q.
Proof.
  intros Hq i parent child Hpos Hc Hp.
  assert (Hlt : ((i - 1) / 2 < i)%nat) by (apply Nat.Div0.div_lt_upper_bound; lia).
  revert Hlt Hc Hp. generalize ((i - 1) / 2)%nat as j. clear Hpos.
  revert i. induction Hq as [|x q Hq IH Hall]; intros i j Hlt Hc Hp.
  - destruct i; discriminate.
  - destruct i as [|i]; [lia|]. simpl in Hc.
    destruct j as [|j]; simpl in Hp.
    + injection Hp as <-. apply nth_error_In in Hc.
      rewrite Forall_forall in Hall. exact (Hall child Hc).
    + apply (IH i j); [lia | exact Hc | exact Hp].
Qed.

Lemma enqueue_In (sp x : SynchronizationPoint) (q : list SynchronizationPoint) :
  In x (enqueue sp q) <-> x = sp \/ In x q.
Proof.
  induction q as [|p q IH]; simpl.
  - intuition congruence.
  - destruct (LessSyncPoint_time_sp (getTime sp) p); simpl.
    + intuition congruence.
    + rewrite IH. intuition congruence.
Qed.

Lemma enqueue_length (sp : SynchronizationPoint) (q : list SynchronizationPoint) :
  length (enqueue sp q) = S (length q).
Proof.
  induction q as [|p q IH]; simpl; [reflexivity|].
  destruct (LessSyncPoint_time_sp (getTime sp) p); simpl; [reflexivity|].
  rewrite IH; reflexivity.
Qed.

(** The new point lands behind every point that is not later than it. *)
Lemma enqueue_split (sp : SynchronizationPoint) (q : list SynchronizationPoint) :
  exists l1 l2,
    q = l1 ++ l2 /\
    enqueue sp q = l1 ++ sp :: l2 /\
    Forall (fun p => getTime p <= getTime sp) l1.
Proof.
  induction q as [|p q (l1 & l2 & Hq & He & Hall)]; simpl.
  - exists [], []. repeat split. constructor.
  - unfold LessSyncPoint_time_sp. destruct (Z.ltb_spec (getTime sp) (getTime p)) as [Hlt | Hge].
    + exists [], (p :: q). repeat split. constructor.
    + exists (p :: l1), l2. subst q. rewrite He. repeat split.
      constructor; assumption.
Qed.

Lemma enqueue_past_prefix (sp : SynchronizationPoint) (l1 l2 : list SynchronizationPoint) :
  Forall (fun p => getTime p <= getTime sp) l1 ->
  enqueue sp (l1 ++ l2) = l1 ++ enqueue sp l2.
Proof.
  induction 1 as [|p l1 Hp _ IH]; simpl; [reflexivity|].
  unfold LessSyncPoint_time_sp at 1.
  destruct (Z.ltb_spec (getTime sp) (getTime p)) as [Hlt | _]; [lia|].
  rewrite IH; reflexivity.
Qed.

Lemma enqueue_ok (sp : SynchronizationPoint) (q : list SynchronizationPoint) :
  queue_ok q -> queue_ok (enqueue sp q).
Proof.
  induction 1 as [|p q Hq IH Hall]; simpl.
  - apply queue_ok_cons; constructor.
  - unfold LessSyncPoint_time_sp.
    destruct (Z.ltb_spec (getTime sp) (getTime p)) as [Hlt | Hge].
    + apply queue_ok_cons; [apply queue_ok_cons; assumption|].
      constructor; [unfold notLater; lia|].
      rewrite Forall_forall in Hall |- *. intros x Hx.
      specialize (Hall x Hx). unfold notLater in *; lia.
    + apply queue_ok_cons; [exact IH|].
      rewrite Forall_forall in Hall |- *. intros x Hx.
      apply enqueue_In in Hx. destruct Hx as [-> | Hx]; [exact Hge | exact (Hall x Hx)].
Qed.

Lemma eraseFirst_split (f : SynchronizationPoint -> bool) (q : list SynchronizationPoint) :
  (exists x, In x q /\ f x = true) ->
  exists l1 x l2,
    q = l1 ++ x :: l2 /\ f x = true /\
    Forall (fun p => f p = false) l1 /\
    eraseFirst f q = l1 ++ l2.
Proof.
  induction q as [|p q IH]; intros (x & Hx & Hfx); [destruct Hx|].
  simpl. destruct (f p) eqn:Hfp.
  - exists [], p, q. repeat split; [exact Hfp | constructor].
  - destruct Hx as [-> | Hx]; [congruence|].
    destruct (IH (ex_intro _ x (conj Hx Hfx))) as (l1 & y & l2 & Hq & Hfy & Hall & He).
    exists (p :: l1), y, l2. subst q. rewrite He. repeat split; [exact Hfy|].
    constructor; assumption.
Qed.

Lemma eraseFirst_incl (f : SynchronizationPoint -> bool) (q : list SynchronizationPoint)
    (x : SynchronizationPoint) :
  In x (eraseFirst f q) -> In x q.
Proof.
  induction q as [|p q IH]; simpl; [tauto|].
  destruct (f p); simpl; intuition.
Qed.

Lemma eraseFirst_ok (f : SynchronizationPoint -> bool) (q : list SynchronizationPoint) :
  queue_ok q -> queue_ok (eraseFirst f q).
Proof.
  induction 1 as [|p q Hq IH Hall]; simpl; [constructor|].
  destruct (f p); [exact Hq|].
  apply queue_ok_cons; [exact IH|].
  rewrite Forall_forall in Hall |- *. intros x Hx.
  apply Hall. exact (eraseFirst_incl f q x Hx).
Qed.

Lemma filter_ok (f : SynchronizationPoint -> bool) (q : list SynchronizationPoint) :
  queue_ok q -> queue_ok (filter f q).
Proof.
  induction 1 as [|p q Hq IH Hall]; simpl; [constructor|].
  destruct (f p); [|exact IH].
  apply queue_ok_cons; [exact IH|].
  rewrite Forall_forall in Hall |- *. intros x Hx.
  apply Hall. apply filter_In in Hx. tauto.
Qed.

Lemma filter_none {A : Type} (f : A -> bool) (l : list A) :
  (forall x, In x l -> f x = false) -> filter f l = [].
Proof.
  induction l as [|a l IH]; intros H; simpl; [reflexivity|].
  rewrite (H a (or_introl eq_refl)). apply IH. intros x Hx. apply H. right; exact Hx.
Qed.

(** A time-ordered queue is its due points followed by the others. *)
Lemma queue_ok_due_beyond (limit : EmuTime) (q : list SynchronizationPoint) :
  queue_ok q -> q = due limit q ++ beyond limit q.
Proof.
  unfold due, beyond.
  induction 1 as [|p q Hq IH Hall]; simpl; [reflexivity|].
  destruct (LessSyncPoint_time_sp limit p) eqn:Hp; simpl.
  - assert (Hnone : filter (fun sp => negb (LessSyncPoint_time_sp limit sp)) q = []).
    { apply filter_none. intros x Hx.
      rewrite Forall_forall in Hall. specialize (Hall x Hx).
      unfold notLater, LessSyncPoint_time_sp in *.
      apply Z.ltb_lt in Hp.
      destruct (Z.ltb_spec limit (getTime x)); [reflexivity | lia]. }
    rewrite Hnone in IH |- *. simpl in IH |- *. rewrite <- IH. reflexivity.
  - rewrite <- IH. reflexivity.
Qed.

Lemma due_Forall (limit : EmuTime) (q : list SynchronizationPoint) :
  Forall (fun sp => getTime sp <= limit) (due limit q).
Proof.
  apply Forall_forall. intros x Hx. apply filter_In in Hx. destruct Hx as [_ Hx].
  unfold LessSyncPoint_time_sp in Hx.
  destruct (Z.ltb_spec limit (getTime x)); [discriminate | assumption].
Qed.

Lemma beyond_Forall (limit : EmuTime) (q : list SynchronizationPoint) :
  Forall (fun sp => limit < getTime sp) (beyond limit q).
Proof.
  apply Forall_forall. intros x Hx. apply filter_In in Hx. destruct Hx as [_ Hx].
  unfold LessSyncPoint_time_sp in Hx.
  destruct (Z.ltb_spec limit (getTime x)); [assumption | discriminate].
Qed.

(** ** The order of two points in a sequence *)

Lemma before_cons (p q x : SynchronizationPoint) (l : list SynchronizationPoint) :
  before p q l -> before p q (x :: l).
Proof.
  intros (l1 & l2 & l3 & ->). exists (x :: l1), l2, l3. reflexivity.
Qed.

Lemma before_head (p q : SynchronizationPoint) (l : list SynchronizationPoint) :
  In q l -> before p q (p :: l).
Proof.
  intros Hq. apply in_split in Hq. destruct Hq as (l2 & l3 & ->).
  exists [], l2, l3. reflexivity.
Qed.

Lemma before_cons_inv (p q x : SynchronizationPoint) (l : list SynchronizationPoint) :
  before p q (x :: l) -> (x = p /\ In q l) \/ before p q l.
Proof.
  intros (l1 & l2 & l3 & H). destruct l1 as [|y l1]; simpl in H.
  - injection H as -> ->. left. split; [reflexivity|].
    apply in_or_app. right. left. reflexivity.
  - injection H as -> ->. right. exists l1, l2, l3. reflexivity.
Qed.

Lemma before_In (p q : SynchronizationPoint) (l : list SynchronizationPoint) :
  before p q l -> In p l /\ In q l.
Proof.
  intros (l1 & l2 & l3 & ->). split.
  - apply in_or_app. right. left. reflexivity.
  - apply in_or_app. right. right. apply in_or_app. right. left. reflexivity.
Qed.

Lemma before_insert (p q x : SynchronizationPoint) (a b : list SynchronizationPoint) :
  before p q (a ++ b) -> before p q (a ++ x :: b).
Proof.
  induction a as [|y a IH]; simpl; intros H.
  - apply before_cons. exact H.
  - apply before_cons_inv in H. destruct H as [[-> Hq] | H].
    + apply before_head. apply in_app_or in Hq. apply in_or_app.
      destruct Hq as [Hq | Hq]; [left | right; right]; exact Hq.
    + apply before_cons. apply IH. exact H.
Qed.

(** In a time-ordered sequence the strictly earlier point comes first. *)
Lemma queue_ok_before (p q : SynchronizationPoint) (l : list SynchronizationPoint) :
  queue_ok l -> In p l -> In q l -> getTime p < getTime q -> before p q l.
Proof.
  induction 1 as [|x l Hl IH Hall]; intros Hp Hq Hlt; [destruct Hp|].
  rewrite Forall_forall in Hall.
  destruct Hp as [-> | Hp].
  - destruct Hq as [-> | Hq]; [lia|]. apply before_head. exact Hq.
  - destruct Hq as [-> | Hq].
    + specialize (Hall p Hp). unfold notLater in Hall. lia.
    + apply before_cons. apply IH; assumption.
Qed.

(** Registration keeps the order of the points already pending. *)
Lemma before_enqueue (p q sp : SynchronizationPoint) (l : list SynchronizationPoint) :
  before p q l -> before p q (enqueue sp l).
Proof.
  intros H. destruct (enqueue_split sp l) as (l1 & l2 & Hl & He & _).
  rewrite He. apply before_insert. rewrite <- Hl. exact H.
Qed.

Lemma eraseFirst_keeps (f : SynchronizationPoint -> bool) (x : SynchronizationPoint)
    (l : list SynchronizationPoint) :
  f x = false -> In x l -> In x (eraseFirst f l).
Proof.
  intros Hf. induction l as [|y l IH]; simpl; [tauto|].
  intros [-> | Hx].
  - rewrite Hf. left; reflexivity.
  - destruct (f y); [exact Hx | right; apply IH; exact Hx].
Qed.

(** Cancelling some other point keeps the order of two points. *)
Lemma before_eraseFirst (f : SynchronizationPoint -> bool) (p q : SynchronizationPoint)
    (l : list SynchronizationPoint) :
  f p = false -> f q = false -> before p q l -> before p q (eraseFirst f l).
Proof.
  intros Hp Hq. induction l as [|y l IH]; intros H.
  - destruct H as (l1 & l2 & l3 & H). destruct l1; discriminate.
  - simpl. apply before_cons_inv in H. destruct H as [[-> Hin] | H].
    + rewrite Hp. apply before_head. apply eraseFirst_keeps; assumption.
    + destruct (f y); [exact H | apply before_cons; apply IH; exact H].
Qed.

Lemma before_filter (f : SynchronizationPoint -> bool) (p q : SynchronizationPoint)
    (l : list SynchronizationPoint) :
  f p = true -> f q = true -> before p q l -> before p q (filter f l).
Proof.
  intros Hp Hq. induction l as [|y l IH]; intros H.
  - destruct H as (l1 & l2 & l3 & H). destruct l1; discriminate.
  - simpl. apply before_cons_inv in H. destruct H as [[-> Hin] | H].
    + rewrite Hp. apply before_head. apply filter_In. split; assumption.
    + destruct (f y); [apply before_cons|]; apply IH; exact H.
Qed.

(** ** Calls made while a drain is in progress *)

(** A nested [schedule] finds the flag set: whichever way the guard of the
    inline code goes, the call only records its limit. *)
Lemma schedule_nested (loop : EmuTime -> Scheduler -> outcome Scheduler)
    (limit : EmuTime) (s : Scheduler) :
  scheduleInProgress s = true ->
  syncPoints s <> [] ->
  schedule (guarded loop) limit s = Done (withScheduleTime limit s).
Proof.
  intros Hflag Hne.
  destruct (syncPoints s) as [|sp rest] eqn:Hq; [contradiction|].
  pose proof (getNext_front s sp rest Hq) as Hn.
  destruct (Z.lt_ge_cases limit (getTime sp)) as [Hlt | Hge].
  - exact (schedule_fast _ limit _ s Hn Hlt).
  - rewrite (schedule_slow _ limit _ s Hn Hge).
    unfold guarded. rewrite Hflag. reflexivity.
Qed.

Section TameDevices.

Variable nest : bool.
Variable limit : EmuTime.

Lemma perform_tame (loop : EmuTime -> Scheduler -> outcome Scheduler)
    (c : Call) (dueq bey : list SynchronizationPoint) (s : Scheduler) :
  tame nest limit c = true ->
  draining nest limit dueq bey s ->
  scheduleTime s <= limit ->
  exists s' bey',
    perform (guarded loop) c s = Done s' /\
    draining nest limit dueq bey' s' /\
    scheduleTime s' <= limit /\
    incl bey bey' /\
    trace s' = trace s /\
    events s' = events s.
Proof.
  intros Htame (Hflag & Hq & Hdue & Hbey & Hnest) Htime.
  destruct c as [t d u | d u | d | l]; simpl in Htame; try discriminate.
  - apply Z.ltb_lt in Htame.
    exists (withSyncPoints (enqueue (mkSynchronizationPoint t d u) (syncPoints s)) s),
           (enqueue (mkSynchronizationPoint t d u) bey).
    split; [|split; [|split; [|split; [|split]]]].
    + simpl. unfold setSyncPoint.
      destruct (Z.ltb_spec t (scheduleTime s)); [lia | reflexivity].
    + unfold draining; simpl. split; [exact Hflag|]. split.
      * rewrite Hq. apply enqueue_past_prefix.
        apply Forall_impl with (2 := Hdue). simpl; intros; lia.
      * split; [exact Hdue|]. split.
        -- apply Forall_forall. intros x Hx. apply enqueue_In in Hx.
           destruct Hx as [-> | Hx]; [exact Htame|].
           rewrite Forall_forall in Hbey. exact (Hbey x Hx).
        -- intros _ He.
           pose proof (enqueue_length (mkSynchronizationPoint t d u) bey) as Hl.
           rewrite He in Hl. discriminate.
    + exact Htime.
    + intros x Hx. apply enqueue_In. right; exact Hx.
    + reflexivity.
    + reflexivity.
  - apply andb_prop in Htame. destruct Htame as [Hn Hl]. apply Z.leb_le in Hl.
    exists (withScheduleTime l s), bey.
    split; [|split; [|split; [|split; [|split]]]].
    + simpl. apply schedule_nested; [exact Hflag|].
      rewrite Hq. intros He. apply app_eq_nil in He. destruct He as [_ He].
      exact (Hnest Hn He).
    + unfold draining; simpl. repeat split; assumption.
    + exact Hl.
    + apply incl_refl.
    + reflexivity.
    + reflexivity.
Qed.

Lemma performAll_tame (loop : EmuTime -> Scheduler -> outcome Scheduler)
    (cs : list Call) :
  Forall (fun c => tame nest limit c = true) cs ->
  forall (dueq bey : list SynchronizationPoint) (s : Scheduler),
    draining nest limit dueq bey s ->
    scheduleTime s <= limit ->
    exists s' bey',
      performAll (guarded loop) cs s = Done s' /\
      draining nest limit dueq bey' s' /\
      scheduleTime s' <= limit /\
      incl bey bey' /\
      trace s' = trace s /\
      events s' = events s.
Proof.
  induction 1 as [|c cs Hc _ IH]; intros dueq bey s Hd Ht.
  - exists s, bey. simpl.
    split; [reflexivity|]. split; [exact Hd|]. split; [exact Ht|].
    split; [apply incl_refl | split; reflexivity].
  - destruct (perform_tame loop c dueq bey s Hc Hd Ht)
      as (s1 & bey1 & Hrun1 & Hd1 & Ht1 & Hincl1 & Htr1 & Hev1).
    destruct (IH dueq bey1 s1 Hd1 Ht1)
      as (s2 & bey2 & Hrun2 & Hd2 & Ht2 & Hincl2 & Htr2 & Hev2).
    exists s2, bey2. simpl. rewrite Hrun1. simpl.
    split; [exact Hrun2|]. split; [exact Hd2|]. split; [exact Ht2|]. split.
    + eapply incl_tran; eassumption.
    + split; congruence.
Qed.

Variable executeUntil : Devices.
Hypothesis devices_tame : tame_devices nest limit executeUntil.

(** The drain fires the due points front to back, each once and each
    returning before the next is called, and stops at the first point
    beyond the limit. *)
Lemma drain_tame (dueq : list SynchronizationPoint) :
  forall (fuel : nat) (bey : list SynchronizationPoint) (s : Scheduler),
    (length dueq < fuel)%nat ->
    draining nest limit dueq bey s ->
    exists s' bey',
      drain executeUntil fuel limit s = Done s' /\
      draining nest limit [] bey' s' /\
      incl bey bey' /\
      trace s' = trace s ++ dueq /\
      events s' = events s ++ callbacks dueq.
Proof.
  induction dueq as [|d dq IH]; intros fuel bey s Hfuel Hd.
  - destruct fuel as [|fuel]; [inversion Hfuel|].
    exists s, bey. split; [|split; [exact Hd | split; [apply incl_refl|]]].
    + destruct Hd as (_ & Hq & _ & Hbey & _). simpl in Hq. simpl. rewrite Hq.
      destruct bey as [|b bey]; [reflexivity|].
      inversion Hbey as [|? ? Hb _]; subst.
      unfold LessSyncPoint_time_sp.
      destruct (Z.ltb_spec limit (getTime b)); [reflexivity | lia].
    + simpl. rewrite !app_nil_r. split; reflexivity.
  - destruct fuel as [|fuel]; [inversion Hfuel|].
    destruct Hd as (Hflag & Hq & Hdue & Hbey & Hnest).
    inversion Hdue as [|? ? Hdle Hdq]; subst.
    assert (Hd1 : draining nest limit dq bey (fire d (dq ++ bey) s)).
    { unfold draining; simpl. repeat split; assumption. }
    assert (Hcalls : Forall (fun c => tame nest limit c = true)
                       (executeUntil (getDevice d) (getTime d) (getUserData d)
                          (fire d (dq ++ bey) s))).
    { apply Forall_forall. intros c Hc. exact (devices_tame _ _ _ _ c Hdle Hc). }
    destruct (performAll_tame (drain executeUntil fuel) _ Hcalls dq bey _ Hd1 Hdle)
      as (s2 & bey2 & Hrun2 & Hd2 & _ & Hincl2 & Htr2 & Hev2).
    assert (Hfuel' : (length dq < fuel)%nat) by (simpl in Hfuel; lia).
    assert (Hd2' : draining nest limit dq bey2 (finish d s2)) by exact Hd2.
    destruct (IH fuel bey2 (finish d s2) Hfuel' Hd2')
      as (s3 & bey3 & Hrun3 & Hd3 & Hincl3 & Htr3 & Hev3).
    exists s3, bey3. split; [|split; [exact Hd3 | split]].
    + simpl. rewrite Hq. simpl. unfold LessSyncPoint_time_sp.
      destruct (Z.ltb_spec limit (getTime d)) as [Hlt | _]; [lia|].
      rewrite Hrun2. simpl. exact Hrun3.
    + eapply incl_tran; eassumption.
    + split.
      * rewrite Htr3. simpl. rewrite Htr2. simpl. rewrite <- app_assoc. reflexivity.
      * rewrite Hev3. simpl. rewrite Hev2. simpl. rewrite <- !app_assoc. reflexivity.
Qed.

(** [schedule limit] on an idle Scheduler with a time-ordered, non-empty
    queue: with more fuel than pending points it returns, having fired
    exactly the due points in queue order. *)
Lemma run_schedule_tame (fuel : nat) (s : Scheduler) :
  queue_ok (syncPoints s) ->
  syncPoints s <> [] ->
  scheduleInProgress s = false ->
  (nest = true -> exists sentinel, In sentinel (syncPoints s) /\ limit < getTime sentinel) ->
  (length (syncPoints s) < fuel)%nat ->
  exists s',
    run_schedule executeUntil fuel limit s = Done s' /\
    trace s' = trace s ++ due limit (syncPoints s) /\
    events s' = events s ++ callbacks (due limit (syncPoints s)) /\
    scheduleTime s' = limit /\
    scheduleInProgress s' = false /\
    Forall (fun sp => limit < getTime sp) (syncPoints s') /\
    incl (beyond limit (syncPoints s)) (syncPoints s').
Proof.
  intros Hok Hne Hidle Hsent Hfuel.
  pose proof (queue_ok_due_beyond limit (syncPoints s) Hok) as Hsplit.
  destruct (syncPoints s) as [|sp rest] eqn:Hq; [contradiction|].
  pose proof (getNext_front s sp rest Hq) as Hn.
  unfold run_schedule.
  destruct (Z.lt_ge_cases limit (getTime sp)) as [Hlt | Hge].
  - rewrite (schedule_fast _ limit _ s Hn Hlt).
    assert (Hnodue : due limit (sp :: rest) = []).
    { destruct (due limit (sp :: rest)) as [|x l] eqn:Hdue; [reflexivity|].
      exfalso. simpl in Hsplit. injection Hsplit as Hx _.
      pose proof (due_Forall limit (sp :: rest)) as Hall.
      rewrite Hdue in Hall. inversion Hall; subst. lia. }
    exists (withScheduleTime limit s).
    rewrite Hnodue in Hsplit |- *.
    change (sp :: rest = beyond limit (sp :: rest)) in Hsplit.
    unfold withScheduleTime; cbn [syncPoints scheduleTime scheduleInProgress trace events].
    rewrite Hq. simpl callbacks. rewrite !app_nil_r.
    split; [reflexivity|]. split; [reflexivity|]. split; [reflexivity|].
    split; [reflexivity|]. split; [exact Hidle|]. split.
    + rewrite Hsplit at 1. apply beyond_Forall.
    + rewrite <- Hsplit. apply incl_refl.
  - rewrite (schedule_slow _ limit _ s Hn Hge).
    unfold scheduleHelper, guarded. rewrite Hidle.
    assert (Hd : draining nest limit (due limit (sp :: rest)) (beyond limit (sp :: rest))
                   (withInProgress true s)).
    { unfold draining; simpl. rewrite Hq. repeat split.
      - exact Hsplit.
      - apply due_Forall.
      - apply beyond_Forall.
      - intros Hnest He. destruct (Hsent Hnest) as (sentinel & Hin & Hlt).
        assert (Hb : In sentinel (beyond limit (sp :: rest))).
        { apply filter_In. split; [exact Hin|]. apply Z.ltb_lt. exact Hlt. }
        rewrite He in Hb. destruct Hb. }
    assert (Hlen : (length (due limit (sp :: rest)) < fuel)%nat).
    { eapply Nat.le_lt_trans; [apply filter_length_le | exact Hfuel]. }
    destruct (drain_tame _ fuel _ _ Hlen Hd) as (s1 & bey1 & Hrun & Hd1 & Hincl & Htr & Hev).
    exists (withScheduleTime limit (withInProgress false s1)).
    rewrite Hrun. simpl.
    destruct Hd1 as (_ & Hq1 & _ & Hbey1 & _). simpl in Hq1.
    repeat split.
    + exact Htr.
    + exact Hev.
    + rewrite Hq1. exact Hbey1.
    + rewrite Hq1. exact Hincl.
Qed.

End TameDevices.

(** ** Calls made from outside a drain *)

Lemma setSyncPoint_Done (t : EmuTime) (d : Schedulable) (u : Z) (s s' : Scheduler) :
  setSyncPoint t d u s = Done s' ->
  scheduleTime s <= t /\
  s' = withSyncPoints (enqueue (mkSynchronizationPoint t d u) (syncPoints s)) s.
Proof.
  unfold setSyncPoint. destruct (Z.ltb_spec t (scheduleTime s)) as [Hlt | Hge]; intros H.
  - discriminate.
  - injection H as <-. split; [exact Hge | reflexivity].
Qed.

(** ** The time order of the queue is an invariant *)

Lemma schedule_keeps_order (helper : EmuTime -> Scheduler -> outcome Scheduler)
    (limit : EmuTime) :
  keeps_order (helper limit) -> keeps_order (schedule helper limit).
Proof.
  intros Hh s s' Hrun Hok. unfold schedule in Hrun.
  apply bind_Done_inv in Hrun. destruct Hrun as (next & _ & Hrun).
  apply bind_Done_inv in Hrun. destruct Hrun as (s1 & Hs1 & Hrun).
  injection Hrun as <-. simpl.
  destruct (limit >=? next).
  - exact (Hh s s1 Hs1 Hok).
  - injection Hs1 as <-. exact Hok.
Qed.

Lemma guarded_keeps_order (loop : EmuTime -> Scheduler -> outcome Scheduler)
    (limit : EmuTime) :
  keeps_order (loop limit) -> keeps_order (guarded loop limit).
Proof.
  intros Hl s s' Hrun Hok. unfold guarded in Hrun.
  destruct (scheduleInProgress s).
  - injection Hrun as <-. exact Hok.
  - apply bind_Done_inv in Hrun. destruct Hrun as (s1 & Hs1 & Hrun).
    injection Hrun as <-. simpl. exact (Hl _ s1 Hs1 Hok).
Qed.

Lemma perform_keeps_order (helper : EmuTime -> Scheduler -> outcome Scheduler) (c : Call) :
  (forall limit, keeps_order (helper limit)) -> keeps_order (perform helper c).
Proof.
  intros Hh s s' Hrun Hok. destruct c as [t d u | d u | d | l]; simpl in Hrun.
  - apply setSyncPoint_Done in Hrun. destruct Hrun as [_ ->]. simpl.
    apply enqueue_ok. exact Hok.
  - injection Hrun as <-. simpl. apply eraseFirst_ok. exact Hok.
  - injection Hrun as <-. simpl. apply filter_ok. exact Hok.
  - exact (schedule_keeps_order helper l (Hh l) s s' Hrun Hok).
Qed.

Lemma performAll_keeps_order (helper : EmuTime -> Scheduler -> outcome Scheduler)
    (cs : list Call) :
  (forall limit, keeps_order (helper limit)) -> keeps_order (performAll helper cs).
Proof.
  intros Hh. induction cs as [|c cs IH]; intros s s' Hrun Hok; simpl in Hrun.
  - injection Hrun as <-. exact Hok.
  - apply bind_Done_inv in Hrun. destruct Hrun as (s1 & Hs1 & Hrun).
    apply (IH s1 s' Hrun). exact (perform_keeps_order helper c Hh s s1 Hs1 Hok).
Qed.

Lemma drain_keeps_order (executeUntil : Devices) (fuel : nat) :
  forall limit, keeps_order (drain executeUntil fuel limit).
Proof.
  induction fuel as [|fuel IH]; intros limit s s' Hrun Hok; simpl in Hrun; [discriminate|].
  destruct (syncPoints s) as [|sp rest] eqn:Hq.
  - injection Hrun as <-. rewrite Hq. exact Hok.
  - destruct (LessSyncPoint_time_sp limit sp).
    + injection Hrun as <-. rewrite Hq. exact Hok.
    + apply bind_Done_inv in Hrun. destruct Hrun as (s2 & Hs2 & Hrun).
      apply (IH limit (finish sp s2) s' Hrun). simpl.
      apply (performAll_keeps_order (guarded (drain executeUntil fuel)) _
               (fun l => guarded_keeps_order _ l (IH l)) _ s2 Hs2).
      simpl. apply (proj1 (queue_ok_inv sp rest Hok)).
Qed.

Ltac queue_ok_by_computation :=
  unfold queue_ok; repeat constructor; unfold notLater; simpl; lia.

(** ** Calls made while the flag is set *)

(** While the flag is set each call does one thing: a registration
    enqueues, a cancellation erases, and [schedule] records its limit. *)
Lemma perform_flagged (loop : EmuTime -> Scheduler -> outcome Scheduler)
    (c : Call) (s s' : Scheduler) :
  scheduleInProgress s = true ->
  perform (guarded loop) c s = Done s' ->
  match c with
  | CallSetSyncPoint t d u =>
      scheduleTime s <= t /\
      s' = withSyncPoints (enqueue (mkSynchronizationPoint t d u) (syncPoints s)) s
  | CallRemoveSyncPoint d u => s' = removeSyncPoint d u s
  | CallRemoveSyncPoints d => s' = removeSyncPoints d s
  | CallSchedule l => syncPoints s <> [] /\ s' = withScheduleTime l s
  end.
Proof.
  intros Hflag Hrun. destruct c as [t d u | d u | d | l]; simpl in Hrun.
  - apply setSyncPoint_Done. exact Hrun.
  - injection Hrun as <-. reflexivity.
  - injection Hrun as <-. reflexivity.
  - destruct (syncPoints s) as [|sp rest] eqn:Hq.
    + rewrite (schedule_empty _ l s Hq) in Hrun. discriminate.
    + split; [discriminate|].
      assert (Hne : syncPoints s <> []) by (rewrite Hq; discriminate).
      rewrite (schedule_nested loop l s Hflag Hne) in Hrun.
      injection Hrun as <-. reflexivity.
Qed.

Lemma perform_flagged_frame (loop : EmuTime -> Scheduler -> outcome Scheduler)
    (c : Call) (s s' : Scheduler) :
  scheduleInProgress s = true ->
  perform (guarded loop) c s = Done s' ->
  scheduleInProgress s' = true /\ trace s' = trace s /\ events s' = events s.
Proof.
  intros Hflag Hrun. pose proof (perform_flagged loop c s s' Hflag Hrun) as H.
  destruct c as [t d u | d u | d | l].
  - destruct H as [_ ->]. simpl. auto.
  - subst s'. simpl. auto.
  - subst s'. simpl. auto.
  - destruct H as [_ ->]. simpl. auto.
Qed.

(** The loop behind the guard plays no part in such a call. *)
Lemma perform_flagged_loop (loop loop' : EmuTime -> Scheduler -> outcome Scheduler)
    (c : Call) (s : Scheduler) :
  scheduleInProgress s = true ->
  perform (guarded loop) c s = perform (guarded loop') c s.
Proof.
  intros Hflag. destruct c as [t d u | d u | d | l]; simpl; try reflexivity.
  unfold schedule, guarded. rewrite Hflag. reflexivity.
Qed.

Lemma performAll_flagged_loop (loop loop' : EmuTime -> Scheduler -> outcome Scheduler)
    (cs : list Call) :
  forall s, scheduleInProgress s = true ->
  performAll (guarded loop) cs s = performAll (guarded loop') cs s.
Proof.
  induction cs as [|c cs IH]; intros s Hflag; simpl; [reflexivity|].
  rewrite (perform_flagged_loop loop loop' c s Hflag).
  destruct (perform (guarded loop') c s) as [s1| | |] eqn:Hrun; simpl; try reflexivity.
  apply IH. exact (proj1 (perform_flagged_frame loop' c s s1 Hflag Hrun)).
Qed.

Lemma performAll_flagged_frame (loop : EmuTime -> Scheduler -> outcome Scheduler)
    (cs : list Call) :
  forall s s', scheduleInProgress s = true ->
  performAll (guarded loop) cs s = Done s' ->
  scheduleInProgress s' = true /\ trace s' = trace s /\ events s' = events s.
Proof.
  induction cs as [|c cs IH]; intros s s' Hflag Hrun; simpl in Hrun.
  - injection Hrun as <-. auto.
  - apply bind_Done_inv in Hrun. destruct Hrun as (s1 & Hrun1 & Hrun2).
    destruct (perform_flagged_frame loop c s s1 Hflag Hrun1) as (Hf1 & Ht1 & He1).
    destruct (IH s1 s' Hf1 Hrun2) as (Hf2 & Ht2 & He2).
    split; [exact Hf2|]. split; congruence.
Qed.

Section QueueInvariant.

(** A property of the queue that the calls allowed by [allowed] keep. *)
Variable P : list SynchronizationPoint -> Prop.
Variable allowed : Call -> bool.

Hypothesis keeps_enqueue :
  forall t d u q, allowed (CallSetSyncPoint t d u) = true ->
    P q -> P (enqueue (mkSynchronizationPoint t d u) q).
Hypothesis keeps_erase :
  forall d u q, allowed (CallRemoveSyncPoint d u) = true ->
    P q -> P (eraseFirst (matches d u) q).
Hypothesis keeps_filter :
  forall d q, allowed (CallRemoveSyncPoints d) = true ->
    P q -> P (filter (fun sp => negb (FindSchedulable d sp)) q).

Lemma performAll_flagged_queue (loop : EmuTime -> Scheduler -> outcome Scheduler)
    (cs : list Call) :
  Forall (fun c => allowed c = true) cs ->
  forall s s', scheduleInProgress s = true ->
  performAll (guarded loop) cs s = Done s' ->
  P (syncPoints s) -> P (syncPoints s').
Proof.
  induction 1 as [|c cs Hc _ IH]; intros s s' Hflag Hrun HP; simpl in Hrun.
  - injection Hrun as <-. exact HP.
  - apply bind_Done_inv in Hrun. destruct Hrun as (s1 & Hrun1 & Hrun2).
    apply (IH s1 s' (proj1 (perform_flagged_frame loop c s s1 Hflag Hrun1)) Hrun2).
    pose proof (perform_flagged loop c s s1 Hflag Hrun1) as H.
    destruct c as [t d u | d u | d | l].
    + destruct H as [_ ->]. simpl. apply keeps_enqueue; assumption.
    + subst s1. simpl. apply keeps_erase; assumption.
    + subst s1. simpl. apply keeps_filter; assumption.
    + destruct H as [_ ->]. simpl. exact HP.
Qed.

End QueueInvariant.

(** The queue stays in time order, whatever the calls. *)
Lemma performAll_flagged_ok (loop : EmuTime -> Scheduler -> outcome Scheduler)
    (cs : list Call) (s s' : Scheduler) :
  scheduleInProgress s = true ->
  performAll (guarded loop) cs s = Done s' ->
  queue_ok (syncPoints s) -> queue_ok (syncPoints s').
Proof.
  apply (performAll_flagged_queue queue_ok (fun _ => true)).
  - intros; apply enqueue_ok; assumption.
  - intros; apply eraseFirst_ok; assumption.
  - intros; apply filter_ok; assumption.
  - apply Forall_forall. reflexivity.
Qed.

(** A point that no call cancels stays pending. *)
Lemma performAll_flagged_keeps (loop : EmuTime -> Scheduler -> outcome Scheduler)
    (p : SynchronizationPoint) (cs : list Call) (s s' : Scheduler) :
  Forall (fun c => keeps p c = true) cs ->
  scheduleInProgress s = true ->
  performAll (guarded loop) cs s = Done s' ->
  In p (syncPoints s) -> In p (syncPoints s').
Proof.
  intros Hcs. apply (performAll_flagged_queue (In p) (keeps p)); [| | |exact Hcs].
  - intros t d u q _ Hin. apply enqueue_In. right; exact Hin.
  - intros d u q Hk Hin. simpl in Hk. apply negb_true_iff in Hk.
    apply eraseFirst_keeps; assumption.
  - intros d q Hk Hin. simpl in Hk. apply filter_In. split; assumption.
Qed.

(** Two points that no call cancels stay in their order. *)
Lemma performAll_flagged_before (loop : EmuTime -> Scheduler -> outcome Scheduler)
    (p1 p2 : SynchronizationPoint) (cs : list Call) (s s' : Scheduler) :
  Forall (fun c => keeps p1 c = true) cs ->
  Forall (fun c => keeps p2 c = true) cs ->
  scheduleInProgress s = true ->
  performAll (guarded loop) cs s = Done s' ->
  before p1 p2 (syncPoints s) -> before p1 p2 (syncPoints s').
Proof.
  intros H1 H2.
  apply (performAll_flagged_queue (before p1 p2) (fun c => keeps p1 c && keeps p2 c)).
  - intros t d u q _ Hb. apply before_enqueue. exact Hb.
  - intros d u q Hk Hb. simpl in Hk. apply andb_prop in Hk. destruct Hk as [Hk1 Hk2].
    apply negb_true_iff in Hk1. apply negb_true_iff in Hk2.
    apply before_eraseFirst; assumption.
  - intros d q Hk Hb. simpl in Hk. apply andb_prop in Hk. destruct Hk as [Hk1 Hk2].
    apply before_filter; assumption.
  - rewrite Forall_forall in H1, H2 |- *. intros c Hc.
    rewrite (H1 c Hc), (H2 c Hc). reflexivity.
Qed.

(** Calls that register nothing before [t] keep every pending point at or
    after [lo], for [lo <= t]. *)
Lemma performAll_flagged_from (loop : EmuTime -> Scheduler -> outcome Scheduler)
    (lo t : EmuTime) (cs : list Call) (s s' : Scheduler) :
  lo <= t ->
  Forall (fun c => punctual t c = true) cs ->
  scheduleInProgress s = true ->
  performAll (guarded loop) cs s = Done s' ->
  Forall (fun sp => lo <= getTime sp) (syncPoints s) ->
  Forall (fun sp => lo <= getTime sp) (syncPoints s').
Proof.
  intros Hlo Hcs.
  apply (performAll_flagged_queue (Forall (fun sp => lo <= getTime sp)) (punctual t));
    [| | |exact Hcs].
  - intros t' d u q Hk Hall. simpl in Hk. apply Z.leb_le in Hk.
    apply Forall_forall. intros x Hx. apply enqueue_In in Hx.
    destruct Hx as [-> | Hx]; [simpl; lia|].
    rewrite Forall_forall in Hall. exact (Hall x Hx).
  - intros d u q _ Hall. apply Forall_forall. intros x Hx.
    rewrite Forall_forall in Hall. apply Hall. exact (eraseFirst_incl _ q x Hx).
  - intros d q _ Hall. apply Forall_forall. intros x Hx.
    rewrite Forall_forall in Hall. apply Hall. apply filter_In in Hx. tauto.
Qed.

(** ** The drain and the relation it computes *)

Lemma inCallback_loop (executeUntil : Devices)
    (loop : EmuTime -> Scheduler -> outcome Scheduler)
    (sp : SynchronizationPoint) (s1 : Scheduler) :
  scheduleInProgress s1 = true ->
  performAll (guarded loop)
    (executeUntil (getDevice sp) (getTime sp) (getUserData sp) s1) s1 =
  inCallback executeUntil sp s1.
Proof. intros Hflag. apply performAll_flagged_loop. exact Hflag. Qed.

Lemma inCallback_frame (executeUntil : Devices) (sp : SynchronizationPoint)
    (s1 s2 : Scheduler) :
  scheduleInProgress s1 = true ->
  inCallback executeUntil sp s1 = Done s2 ->
  scheduleInProgress s2 = true /\ trace s2 = trace s1 /\ events s2 = events s1.
Proof. apply performAll_flagged_frame. Qed.

(** A drain that returns has gone through a finished drain of the
    relation. *)
Lemma drain_Drained (executeUntil : Devices) (limit : EmuTime) (fuel : nat) :
  forall s s',
    scheduleInProgress s = true ->
    drain executeUntil fuel limit s = Done s' ->
    exists fired, Drained executeUntil limit s fired s'.
Proof.
  induction fuel as [|fuel IH]; intros s s' Hflag Hrun; simpl in Hrun; [discriminate|].
  destruct (syncPoints s) as [|sp rest] eqn:Hq.
  - injection Hrun as <-. exists []. apply Drained_stop.
    intros sp rest H. rewrite Hq in H. discriminate.
  - unfold LessSyncPoint_time_sp in Hrun.
    destruct (Z.ltb_spec limit (getTime sp)) as [Hlt | Hge].
    + injection Hrun as <-. exists []. apply Drained_stop.
      intros sp' rest' H. rewrite Hq in H. injection H as <- _. exact Hlt.
    + apply bind_Done_inv in Hrun. destruct Hrun as (s2 & Hcb & Hrun).
      assert (Hf1 : scheduleInProgress (fire sp rest s) = true) by exact Hflag.
      rewrite (inCallback_loop executeUntil _ sp _ Hf1) in Hcb.
      destruct (inCallback_frame executeUntil sp _ s2 Hf1 Hcb) as (Hf2 & _ & _).
      destruct (IH (finish sp s2) s' Hf2 Hrun) as (fired & Hd).
      exists (sp :: fired). exact (Drained_fire _ _ s sp rest s2 fired s' Hq Hge Hcb Hd).
Qed.

(** A finished drain of the relation is what [drain] returns, given more
    fuel than callbacks. *)
Lemma Drained_drain (executeUntil : Devices) (limit : EmuTime)
    (s : Scheduler) (fired : list SynchronizationPoint) (s' : Scheduler) :
  Drained executeUntil limit s fired s' ->
  scheduleInProgress s = true ->
  forall fuel, (length fired < fuel)%nat -> drain executeUntil fuel limit s = Done s'.
Proof.
  induction 1 as [s Hstop | s sp rest s2 fired s' Hq Hle Hcb _ IH];
    intros Hflag fuel Hfuel; (destruct fuel as [|fuel]; [inversion Hfuel|]); simpl.
  - destruct (syncPoints s) as [|sp rest] eqn:Hq; [reflexivity|].
    unfold LessSyncPoint_time_sp.
    destruct (Z.ltb_spec limit (getTime sp)) as [_ | Hge]; [reflexivity|].
    specialize (Hstop sp rest eq_refl). lia.
  - rewrite Hq. unfold LessSyncPoint_time_sp.
    destruct (Z.ltb_spec limit (getTime sp)) as [Hlt | _]; [lia|].
    assert (Hf1 : scheduleInProgress (fire sp rest s) = true) by exact Hflag.
    rewrite (inCallback_loop executeUntil _ sp _ Hf1), Hcb. simpl.
    apply IH.
    + exact (proj1 (inCallback_frame executeUntil sp _ s2 Hf1 Hcb)).
    + simpl in Hfuel. lia.
Qed.

(** What a finished drain leaves on record: the callbacks were made one
    after the other, each returning before the next was made, and none
    but these. *)
Lemma Drained_frame (executeUntil : Devices) (limit : EmuTime)
    (s : Scheduler) (fired : list SynchronizationPoint) (s' : Scheduler) :
  Drained executeUntil limit s fired s' ->
  scheduleInProgress s = true ->
  scheduleInProgress s' = true /\
  trace s' = trace s ++ fired /\
  events s' = events s ++ callbacks fired /\
  Forall (fun sp => getTime sp <= limit) fired.
Proof.
  induction 1 as [s Hstop | s sp rest s2 fired s' Hq Hle Hcb _ IH]; intros Hflag.
  - simpl. rewrite !app_nil_r. auto.
  - assert (Hf1 : scheduleInProgress (fire sp rest s) = true) by exact Hflag.
    destruct (inCallback_frame executeUntil sp _ s2 Hf1 Hcb) as (Hf2 & Ht2 & He2).
    destruct (IH Hf2) as (Hf' & Ht' & He' & Hall).
    split; [exact Hf'|]. split; [|split].
    + rewrite Ht'. simpl. rewrite Ht2. simpl. rewrite <- app_assoc. reflexivity.
    + rewrite He'. simpl. rewrite He2. simpl. rewrite <- !app_assoc. reflexivity.
    + constructor; assumption.
Qed.

(** It leaves the queue in time order, with nothing due in it. *)
Lemma Drained_ok (executeUntil : Devices) (limit : EmuTime)
    (s : Scheduler) (fired : list SynchronizationPoint) (s' : Scheduler) :
  Drained executeUntil limit s fired s' ->
  scheduleInProgress s = true ->
  queue_ok (syncPoints s) ->
  queue_ok (syncPoints s') /\ Forall (fun sp => limit < getTime sp) (syncPoints s').
Proof.
  induction 1 as [s Hstop | s sp rest s2 fired s' Hq Hle Hcb _ IH]; intros Hflag Hok.
  - split; [exact Hok|].
    destruct (syncPoints s) as [|sp rest] eqn:Hq; [constructor|].
    specialize (Hstop sp rest eq_refl).
    destruct (queue_ok_inv sp rest Hok) as [_ Hall].
    constructor; [exact Hstop|].
    apply Forall_impl with (2 := Hall). unfold notLater. intros; lia.
  - assert (Hf1 : scheduleInProgress (fire sp rest s) = true) by exact Hflag.
    apply IH.
    + exact (proj1 (inCallback_frame executeUntil sp _ s2 Hf1 Hcb)).
    + simpl. apply (performAll_flagged_ok _ _ _ s2 Hf1 Hcb). simpl.
      rewrite Hq in Hok. exact (proj1 (queue_ok_inv sp rest Hok)).
Qed.

(** A due point that no callback cancels is among the points fired. *)
Lemma Drained_fires (executeUntil : Devices) (limit : EmuTime) (p : SynchronizationPoint)
    (s : Scheduler) (fired : list SynchronizationPoint) (s' : Scheduler) :
  keeps_devices p executeUntil ->
  getTime p <= limit ->
  Drained executeUntil limit s fired s' ->
  scheduleInProgress s = true ->
  queue_ok (syncPoints s) ->
  In p (syncPoints s) ->
  In p fired.
Proof.
  intros Hkeep Hdue.
  induction 1 as [s Hstop | s sp rest s2 fired s' Hq Hle Hcb _ IH]; intros Hflag Hok Hin.
  - exfalso. destruct (syncPoints s) as [|sp rest] eqn:Hq; [destruct Hin|].
    specialize (Hstop sp rest eq_refl).
    destruct (queue_ok_inv sp rest Hok) as [_ Hall]. rewrite Forall_forall in Hall.
    destruct Hin as [-> | Hin]; [lia|].
    specialize (Hall p Hin). unfold notLater in Hall. lia.
  - rewrite Hq in Hin, Hok. destruct Hin as [-> | Hin]; [left; reflexivity|].
    right. assert (Hf1 : scheduleInProgress (fire sp rest s) = true) by exact Hflag.
    apply IH.
    + exact (proj1 (inCallback_frame executeUntil sp _ s2 Hf1 Hcb)).
    + simpl. apply (performAll_flagged_ok _ _ _ s2 Hf1 Hcb). simpl.
      exact (proj1 (queue_ok_inv sp rest Hok)).
    + simpl. apply (performAll_flagged_keeps _ p _ _ s2) with (3 := Hcb).
      * apply Forall_forall. intros c Hc. exact (Hkeep _ _ _ _ c Hc).
      * exact Hf1.
      * exact Hin.
Qed.

(** Of two due points that no callback cancels, the one in front in the
    queue is fired first. *)
Lemma Drained_before (executeUntil : Devices) (limit : EmuTime)
    (p1 p2 : SynchronizationPoint)
    (s : Scheduler) (fired : list SynchronizationPoint) (s' : Scheduler) :
  keeps_devices p1 executeUntil ->
  keeps_devices p2 executeUntil ->
  getTime p2 <= limit ->
  Drained executeUntil limit s fired s' ->
  scheduleInProgress s = true ->
  queue_ok (syncPoints s) ->
  before p1 p2 (syncPoints s) ->
  before p1 p2 fired.
Proof.
  intros Hk1 Hk2 Hdue.
  induction 1 as [s Hstop | s sp rest s2 fired s' Hq Hle Hcb Hrest IH];
    intros Hflag Hok Hbef.
  - exfalso. destruct (before_In p1 p2 _ Hbef) as [_ Hin].
    destruct (syncPoints s) as [|sp rest] eqn:Hq; [destruct Hin|].
    specialize (Hstop sp rest eq_refl).
    destruct (queue_ok_inv sp rest Hok) as [_ Hall]. rewrite Forall_forall in Hall.
    destruct Hin as [-> | Hin]; [lia|].
    specialize (Hall p2 Hin). unfold notLater in Hall. lia.
  - rewrite Hq in Hbef, Hok.
    assert (Hf1 : scheduleInProgress (fire sp rest s) = true) by exact Hflag.
    assert (Hf2 : scheduleInProgress (finish sp s2) = true)
      by exact (proj1 (inCallback_frame executeUntil sp _ s2 Hf1 Hcb)).
    assert (Hok2 : queue_ok (syncPoints (finish sp s2))).
    { simpl. apply (performAll_flagged_ok _ _ _ s2 Hf1 Hcb). simpl.
      exact (proj1 (queue_ok_inv sp rest Hok)). }
    assert (Hc1 : Forall (fun c => keeps p1 c = true)
                    (executeUntil (getDevice sp) (getTime sp) (getUserData sp)
                       (fire sp rest s))).
    { apply Forall_forall. intros c Hc. exact (Hk1 _ _ _ _ c Hc). }
    assert (Hc2 : Forall (fun c => keeps p2 c = true)
                    (executeUntil (getDevice sp) (getTime sp) (getUserData sp)
                       (fire sp rest s))).
    { apply Forall_forall. intros c Hc. exact (Hk2 _ _ _ _ c Hc). }
    apply before_cons_inv in Hbef. destruct Hbef as [[-> Hin] | Hbef].
    + apply before_head.
      apply (Drained_fires executeUntil limit p2 _ fired s' Hk2 Hdue Hrest Hf2 Hok2).
      simpl. exact (performAll_flagged_keeps _ p2 _ _ s2 Hc2 Hf1 Hcb Hin).
    + apply before_cons. apply (IH Hf2 Hok2). simpl.
      exact (performAll_flagged_before _ p1 p2 _ _ s2 Hc1 Hc2 Hf1 Hcb Hbef).
Qed.

(** When no device registers a point for a time before the one it is
    called for, the callbacks are made in time order. *)
Lemma Drained_sorted (executeUntil : Devices) (limit : EmuTime)
    (s : Scheduler) (fired : list SynchronizationPoint) (s' : Scheduler) :
  punctual_devices executeUntil ->
  Drained executeUntil limit s fired s' ->
  forall lo,
    scheduleInProgress s = true ->
    queue_ok (syncPoints s) ->
    Forall (fun sp => lo <= getTime sp) (syncPoints s) ->
    Forall (fun sp => lo <= getTime sp) fired /\ queue_ok fired.
Proof.
  intros Hpunct.
  induction 1 as [s Hstop | s sp rest s2 fired s' Hq Hle Hcb _ IH];
    intros lo Hflag Hok Hlo.
  - split; constructor.
  - rewrite Hq in Hok, Hlo.
    destruct (queue_ok_inv sp rest Hok) as [Hokr Hall].
    inversion Hlo as [|? ? Hlosp Hlor]; subst.
    assert (Hf1 : scheduleInProgress (fire sp rest s) = true) by exact Hflag.
    assert (Hcs : Forall (fun c => punctual (getTime sp) c = true)
                    (executeUntil (getDevice sp) (getTime sp) (getUserData sp)
                       (fire sp rest s))).
    { apply Forall_forall. intros c Hc. exact (Hpunct _ _ _ _ c Hc). }
    destruct (IH (getTime sp)) as [Hfrom Hsorted].
    + exact (proj1 (inCallback_frame executeUntil sp _ s2 Hf1 Hcb)).
    + simpl. exact (performAll_flagged_ok _ _ _ s2 Hf1 Hcb Hokr).
    + simpl.
      apply (performAll_flagged_from _ (getTime sp) (getTime sp) _ _ s2
               (Z.le_refl _) Hcs Hf1 Hcb).
      simpl. exact Hall.
    + split.
      * constructor; [exact Hlosp|].
        apply Forall_impl with (2 := Hfrom). simpl; intros; lia.
      * apply queue_ok_cons; assumption.
Qed.

(** ** Devices for which the drain ends *)

Lemma performAll_progressive (loop : EmuTime -> Scheduler -> outcome Scheduler)
    (t : EmuTime) (cs : list Call) :
  Forall (fun c => progressive t c = true) cs ->
  forall s, scheduleTime s = t ->
  exists s2, performAll (guarded loop) cs s = Done s2.
Proof.
  induction 1 as [|c cs Hc _ IH]; intros s Ht; simpl.
  - exists s. reflexivity.
  - destruct c as [t' d u | d u | d | l]; simpl in Hc |- *; try discriminate.
    + apply Z.ltb_lt in Hc. unfold setSyncPoint.
      destruct (Z.ltb_spec t' (scheduleTime s)) as [Hlt | _]; [lia|]. simpl.
      apply IH. exact Ht.
    + apply IH. exact Ht.
    + apply IH. exact Ht.
Qed.

Lemma pendingAt_enqueue (t : EmuTime) (sp : SynchronizationPoint)
    (q : list SynchronizationPoint) :
  getTime sp <> t -> pendingAt t (enqueue sp q) = pendingAt t q.
Proof.
  intros Hne. unfold pendingAt.
  destruct (enqueue_split sp q) as (l1 & l2 & Hq & He & _).
  rewrite He, Hq, !filter_app. simpl.
  destruct (Z.eqb_spec (getTime sp) t); [contradiction | reflexivity].
Qed.

Lemma pendingAt_eraseFirst (t : EmuTime) (f : SynchronizationPoint -> bool)
    (q : list SynchronizationPoint) :
  (pendingAt t (eraseFirst f q) <= pendingAt t q)%nat.
Proof.
  unfold pendingAt. induction q as [|p q IH]; simpl; [lia|].
  destruct (f p); simpl; destruct (getTime p =? t); simpl; lia.
Qed.

Lemma pendingAt_filter (t : EmuTime) (f : SynchronizationPoint -> bool)
    (q : list SynchronizationPoint) :
  (pendingAt t (filter f q) <= pendingAt t q)%nat.
Proof.
  unfold pendingAt. induction q as [|p q IH]; simpl; [lia|].
  destruct (f p); simpl; destruct (getTime p =? t); simpl; lia.
Qed.

Lemma pendingAt_none (t : EmuTime) (q : list SynchronizationPoint) :
  pendingAt t q = 0%nat -> Forall (fun sp => getTime sp <> t) q.
Proof.
  unfold pendingAt. induction q as [|p q IH]; simpl; intros H; [constructor|].
  destruct (Z.eqb_spec (getTime p) t) as [Heq | Hne]; [discriminate|].
  constructor; [exact Hne | exact (IH H)].
Qed.

(** Progressive calls from the callback for time [t] add no point at a
    time [t0 <= t] and keep the pending points at or after [t0]. *)
Lemma performAll_flagged_slot (loop : EmuTime -> Scheduler -> outcome Scheduler)
    (t0 t : EmuTime) (k : nat) (cs : list Call) (s s' : Scheduler) :
  t0 <= t ->
  Forall (fun c => progressive t c = true) cs ->
  scheduleInProgress s = true ->
  performAll (guarded loop) cs s = Done s' ->
  Forall (fun sp => t0 <= getTime sp) (syncPoints s) /\ (pendingAt t0 (syncPoints s) <= k)%nat ->
  Forall (fun sp => t0 <= getTime sp) (syncPoints s') /\ (pendingAt t0 (syncPoints s') <= k)%nat.
Proof.
  intros Ht0 Hcs.
  apply (performAll_flagged_queue
           (fun q => Forall (fun sp => t0 <= getTime sp) q /\ (pendingAt t0 q <= k)%nat)
           (progressive t)); [| | |exact Hcs].
  - intros t' d u q Hk [Hall Hcount]. simpl in Hk. apply Z.ltb_lt in Hk. split.
    + apply Forall_forall. intros x Hx. apply enqueue_In in Hx.
      destruct Hx as [-> | Hx]; [simpl; lia|].
      rewrite Forall_forall in Hall. exact (Hall x Hx).
    + rewrite pendingAt_enqueue; [exact Hcount | simpl; lia].
  - intros d u q _ [Hall Hcount]. split.
    + apply Forall_forall. intros x Hx.
      rewrite Forall_forall in Hall. apply Hall. exact (eraseFirst_incl _ q x Hx).
    + pose proof (pendingAt_eraseFirst t0 (matches d u) q). lia.
  - intros d q _ [Hall Hcount]. split.
    + apply Forall_forall. intros x Hx.
      rewrite Forall_forall in Hall. apply Hall. apply filter_In in Hx. tauto.
    + pose proof (pendingAt_filter t0 (fun sp => negb (FindSchedulable d sp)) q). lia.
Qed.

Section Progressive.

Variable executeUntil : Devices.
Variable limit : EmuTime.
Hypothesis devices_progressive : progressive_devices executeUntil.

(** With every pending point later than [limit - n] the drain ends: the
    points of the earliest time are used up one by one, and the callbacks
    add none at that time. *)
Lemma Drained_exists_within (n : nat) :
  forall s,
    scheduleInProgress s = true ->
    queue_ok (syncPoints s) ->
    Forall (fun sp => limit - Z.of_nat n < getTime sp) (syncPoints s) ->
    exists fired s', Drained executeUntil limit s fired s'.
Proof.
  induction n as [|n IHn]; intros s Hflag Hok Hall.
  - exists [], s. apply Drained_stop. intros sp rest Hq.
    rewrite Hq in Hall. inversion Hall; subst. simpl in *. lia.
  - set (t0 := limit - Z.of_nat n).
    assert (Hfrom : Forall (fun sp => t0 <= getTime sp) (syncPoints s)).
    { apply Forall_impl with (2 := Hall). unfold t0. simpl; intros; lia. }
    clear Hall.
    remember (pendingAt t0 (syncPoints s)) as k eqn:Hk.
    assert (Hcount : (pendingAt t0 (syncPoints s) <= k)%nat) by lia. clear Hk.
    revert s Hflag Hok Hfrom Hcount.
    induction k as [|k IHk]; intros s Hflag Hok Hfrom Hcount.
    + apply (IHn s Hflag Hok).
      assert (Hz : pendingAt t0 (syncPoints s) = 0%nat) by lia.
      pose proof (pendingAt_none t0 _ Hz) as Hne.
      rewrite Forall_forall in Hfrom, Hne |- *. intros x Hx.
      specialize (Hfrom x Hx). specialize (Hne x Hx). fold t0. lia.
    + destruct (syncPoints s) as [|sp rest] eqn:Hq.
      * exists [], s. apply Drained_stop. intros sp rest H. rewrite Hq in H. discriminate.
      * destruct (Z.lt_ge_cases limit (getTime sp)) as [Hlt | Hge].
        { exists [], s. apply Drained_stop. intros sp' rest' H.
          rewrite Hq in H. injection H as <- _. exact Hlt. }
        destruct (queue_ok_inv sp rest Hok) as [Hokr Hmin].
        inversion Hfrom as [|? ? Hsp Hrest]; subst.
        destruct (Z.eq_dec (getTime sp) t0) as [Heq | Hne].
        -- assert (Hf1 : scheduleInProgress (fire sp rest s) = true) by exact Hflag.
           assert (Hcs : Forall (fun c => progressive (getTime sp) c = true)
                           (executeUntil (getDevice sp) (getTime sp) (getUserData sp)
                              (fire sp rest s))).
           { apply Forall_forall. intros c Hc. exact (devices_progressive _ _ _ _ c Hc). }
           destruct (performAll_progressive (fun _ _ => OutOfFuel) _ _ Hcs
                       (fire sp rest s) eq_refl) as [s2 Hcb].
           fold (inCallback executeUntil sp (fire sp rest s)) in Hcb.
           assert (Hrestk : (pendingAt t0 rest <= k)%nat).
           { unfold pendingAt in Hcount |- *. simpl in Hcount.
             destruct (Z.eqb_spec (getTime sp) t0); [simpl in Hcount; lia | contradiction]. }
           destruct (performAll_flagged_slot _ t0 (getTime sp) k _ _ s2
                       Hsp Hcs Hf1 Hcb (conj Hrest Hrestk)) as [Hfrom2 Hcount2].
           destruct (IHk (finish sp s2)) as (fired & s' & Hd).
           ++ exact (proj1 (inCallback_frame executeUntil sp _ s2 Hf1 Hcb)).
           ++ simpl. exact (performAll_flagged_ok _ _ _ s2 Hf1 Hcb Hokr).
           ++ exact Hfrom2.
           ++ exact Hcount2.
           ++ exists (sp :: fired), s'.
              exact (Drained_fire _ _ s sp rest s2 fired s' Hq Hge Hcb Hd).
        -- apply (IHn s Hflag).
           ++ rewrite Hq. exact Hok.
           ++ rewrite Hq. constructor; [fold t0; lia|].
              rewrite Forall_forall in Hmin |- *. intros x Hx.
              specialize (Hmin x Hx). unfold notLater in Hmin. fold t0. lia.
Qed.

Lemma Drained_exists (s : Scheduler) :
  scheduleInProgress s = true ->
  queue_ok (syncPoints s) ->
  exists fired s', Drained executeUntil limit s fired s'.
Proof.
  intros Hflag Hok.
  assert (Hn : exists n, Forall (fun sp => limit - Z.of_nat n < getTime sp) (syncPoints s)).
  { generalize (syncPoints s) as q. induction q as [|p q [n Hn]].
    - exists 0%nat. constructor.
    - exists (Nat.max n (Z.to_nat (limit - getTime p + 1))). constructor.
      + lia.
      + apply Forall_impl with (2 := Hn). simpl; intros; lia. }
  destruct Hn as [n Hn]. exact (Drained_exists_within n s Hflag Hok Hn).
Qed.

End Progressive.

(** ** [schedule] from outside a drain *)

Lemma run_schedule_slow (executeUntil : Devices) (fuel : nat) (limit next : EmuTime)
    (s : Scheduler) :
  scheduleInProgress s = false ->
  getNext s = Done next ->
  next <= limit ->
  run_schedule executeUntil fuel limit s =
  (s1 <- drain executeUntil fuel limit (withInProgress true s) ;;
   Done (withScheduleTime limit (withInProgress false s1))).
Proof.
  intros Hidle Hn Hle. unfold run_schedule.
  rewrite (schedule_slow _ limit next s Hn Hle).
  unfold scheduleHelper, guarded. rewrite Hidle.
  destruct (drain executeUntil fuel limit (withInProgress true s)); reflexivity.
Qed.

(** In a time-ordered queue with a due point the front is due. *)
Lemma due_front (limit : EmuTime) (p : SynchronizationPoint) (s : Scheduler) :
  queue_ok (syncPoints s) ->
  In p (syncPoints s) ->
  getTime p <= limit ->
  exists next, getNext s = Done next /\ next <= limit.
Proof.
  intros Hok Hin Hle.
  destruct (syncPoints s) as [|sp rest] eqn:Hq; [destruct Hin|].
  exists (getTime sp). split; [exact (getNext_front s sp rest Hq)|].
  destruct (queue_ok_inv sp rest Hok) as [_ Hall]. rewrite Forall_forall in Hall.
  destruct Hin as [-> | Hin]; [exact Hle|].
  specialize (Hall p Hin). unfold notLater in Hall. lia.
Qed.

(** A call of [schedule] that enters the drain and returns has gone
    through a finished drain, started with the flag set. *)
Lemma run_schedule_Drained (executeUntil : Devices) (fuel : nat) (limit next : EmuTime)
    (s s' : Scheduler) :
  scheduleInProgress s = false ->
  getNext s = Done next ->
  next <= limit ->
  run_schedule executeUntil fuel limit s = Done s' ->
  exists fired s1,
    Drained executeUntil limit (withInProgress true s) fired s1 /\
    s' = withScheduleTime limit (withInProgress false s1).
Proof.
  intros Hidle Hn Hle Hrun.
  rewrite (run_schedule_slow executeUntil fuel limit next s Hidle Hn Hle) in Hrun.
  apply bind_Done_inv in Hrun. destruct Hrun as (s1 & Hdrain & Hs').
  injection Hs' as <-.
  destruct (drain_Drained executeUntil limit fuel (withInProgress true s) s1 eq_refl Hdrain)
    as [fired Hd].
  exists fired, s1. split; [exact Hd | reflexivity].
Qed.

(** With progressive devices [schedule] returns, given enough fuel. *)
Lemma run_schedule_returns (executeUntil : Devices) (limit : EmuTime) (s : Scheduler) :
  progressive_devices executeUntil ->
  scheduleInProgress s = false ->
  queue_ok (syncPoints s) ->
  syncPoints s <> [] ->
  exists fuel s', run_schedule executeUntil fuel limit s = Done s'.
Proof.
  intros Hprog Hidle Hok Hne.
  destruct (syncPoints s) as [|sp rest] eqn:Hq; [contradiction|].
  pose proof (getNext_front s sp rest Hq) as Hn.
  destruct (Z.lt_ge_cases limit (getTime sp)) as [Hlt | Hge].
  - exists 0%nat, (withScheduleTime limit s).
    exact (schedule_fast _ limit _ s Hn Hlt).
  - destruct (Drained_exists executeUntil limit Hprog (withInProgress true s) eq_refl)
      as (fired & s1 & Hd).
    { simpl. rewrite Hq. exact Hok. }
    exists (S (length fired)), (withScheduleTime limit (withInProgress false s1)).
    rewrite (run_schedule_slow executeUntil _ limit _ s Hidle Hn Hge).
    rewrite (Drained_drain executeUntil limit _ fired s1 Hd eq_refl (S (length fired)));
      [reflexivity | lia].
Qed.

(** ** What the event log says about two callbacks *)

Lemma callbacks_app (a b : list SynchronizationPoint) :
  callbacks (a ++ b) = callbacks a ++ callbacks b.
Proof. unfold callbacks. apply flat_map_app. Qed.

(** A fired point's callback was entered and left, with nothing between. *)
Lemma callbacks_In (p : SynchronizationPoint) (fired : list SynchronizationPoint) :
  In p fired ->
  exists l1 l2, callbacks fired = l1 ++ Begin p :: End p :: l2.
Proof.
  intros Hin. apply in_split in Hin. destruct Hin as (a & b & ->).
  exists (callbacks a), (callbacks b). rewrite callbacks_app. reflexivity.
Qed.

(** If [p1] was fired before [p2], the callback for [p1] returned before
    the callback for [p2] was entered. *)
Lemma callbacks_before (p1 p2 : SynchronizationPoint) (fired : list SynchronizationPoint) :
  before p1 p2 fired ->
  exists l1 l2 l3, callbacks fired = l1 ++ End p1 :: l2 ++ Begin p2 :: l3.
Proof.
  intros (a & b & c & ->).
  exists (callbacks a ++ [Begin p1]), (callbacks b), (End p2 :: callbacks c).
  rewrite callbacks_app. simpl. rewrite callbacks_app. simpl.
  rewrite <- app_assoc. reflexivity.
Qed.

Lemma queue_ok_behind (x : SynchronizationPoint) (a b : list SynchronizationPoint) :
  queue_ok (a ++ x :: b) -> Forall (notLater x) b.
Proof.
  induction a as [|y a IH]; simpl; intros Hok.
  - exact (proj2 (queue_ok_inv x b Hok)).
  - apply IH. exact (proj1 (queue_ok_inv y _ Hok)).
Qed.

(** ** Devices see the flag set *)

(** A drain consults the devices on states with the flag set only: what
    they would do on a Scheduler that is not draining does not matter. *)
Lemma drain_flagged_devices (executeUntil executeUntil' : Devices) (limit : EmuTime) :
  (forall d t u st, scheduleInProgress st = true ->
     executeUntil' d t u st = executeUntil d t u st) ->
  forall fuel s, scheduleInProgress s = true ->
    drain executeUntil' fuel limit s = drain executeUntil fuel limit s.
Proof.
  intros Hagree. induction fuel as [|fuel IH]; intros s Hflag; simpl; [reflexivity|].
  destruct (syncPoints s) as [|sp rest]; [reflexivity|].
  destruct (LessSyncPoint_time_sp limit sp); [reflexivity|].
  assert (Hf1 : scheduleInProgress (fire sp rest s) = true) by exact Hflag.
  rewrite (Hagree _ _ _ _ Hf1).
  rewrite (performAll_flagged_loop (drain executeUntil' fuel) (drain executeUntil fuel) _ _ Hf1).
  destruct (performAll (guarded (drain executeUntil fuel))
              (executeUntil (getDevice sp) (getTime sp) (getUserData sp) (fire sp rest s))
              (fire sp rest s)) as [s2| | |] eqn:Hcb; simpl; try reflexivity.
  apply IH. exact (proj1 (performAll_flagged_frame _ _ _ s2 Hf1 Hcb)).
Qed.

Lemma run_schedule_flagged_devices (executeUntil executeUntil' : Devices)
    (fuel : nat) (limit : EmuTime) (s : Scheduler) :
  (forall d t u st, scheduleInProgress st = true ->
     executeUntil' d t u st = executeUntil d t u st) ->
  run_schedule executeUntil' fuel limit s = run_schedule executeUntil fuel limit s.
Proof.
  intros Hagree. unfold run_schedule, schedule.
  destruct (getNext s) as [next| | |]; simpl; try reflexivity.
  destruct (limit >=? next); [|reflexivity].
  unfold scheduleHelper, guarded.
  destruct (scheduleInProgress s); [reflexivity|].
  rewrite (drain_flagged_devices executeUntil executeUntil' limit Hagree fuel
             (withInProgress true s) eq_refl).
  reflexivity.
Qed.

(** ** The claims about the drain *)

Lemma timer_progressive (period : EmuTime) : 0 < period -> progressive_devices (timer period).
Proof.
  intros Hpos d t u s c Hc. unfold timer in Hc.
  destruct (Nat.eqb d 2); simpl in Hc.
  - destruct Hc as [<- | [<- | []]]; simpl; [apply Z.ltb_lt; lia | reflexivity].
  - destruct Hc as [<- | []]. simpl. apply Z.ltb_lt. lia.
Qed.

Lemma timer_punctual (period : EmuTime) : 0 < period -> punctual_devices (timer period).
Proof.
  intros Hpos d t u s c Hc. unfold timer in Hc.
  destruct (Nat.eqb d 2); simpl in Hc.
  - destruct Hc as [<- | [<- | []]]; simpl; [apply Z.leb_le; lia | reflexivity].
  - destruct Hc as [<- | []]. simpl. apply Z.leb_le. lia.
Qed.

Lemma timer_keeps (period : EmuTime) (p : SynchronizationPoint) :
  matches 1%nat 2 p = false -> keeps_devices p (timer period).
Proof.
  intros Hp d t u s c Hc. unfold timer in Hc.
  destruct (Nat.eqb d 2); simpl in Hc.
  - destruct Hc as [<- | [<- | []]]; simpl; [reflexivity | rewrite Hp; reflexivity].
  - destruct Hc as [<- | []]. reflexivity.
Qed.




(** C5.  Let [p1] and [p2] be pending, with [getTime p1 < getTime p2 <=
    limit], in a Scheduler that is not draining and whose queue is in time
    order (as every sequence of registrations leaves it, whatever their
    order).  Every call [schedule limit] that returns has made its
    callbacks one after the other, each returning before the next is
    entered.  When no callback cancels [p1] or [p2], the callback for [p1]
    has returned before the callback for [p2] is entered.  When no device
    registers a point for a time before the one it is called for, all
    callbacks are made in time order, so none for [p1] follows one for
    [p2].  The call returns, given enough fuel, when the devices register
    only for later times and do not call [schedule] again. *)
Theorem earlier_point_fires_first (executeUntil : Devices) (limit : EmuTime)
    (s : Scheduler) (p1 p2 : SynchronizationPoint) :
  queue_ok (syncPoints s) ->
  scheduleInProgress s = false ->
  In p1 (syncPoints s) ->
  In p2 (syncPoints s) ->
  getTime p1 < getTime p2 ->
  getTime p2 <= limit ->
  (forall fuel s',
     run_schedule executeUntil fuel limit s = Done s' ->
     exists fired,
       trace s' = trace s ++ fired /\
       events s' = events s ++ callbacks fired /\
       (keeps_devices p1 executeUntil -> keeps_devices p2 executeUntil ->
        exists l1 l2 l3,
          events s' = events s ++ l1 ++ End p1 :: l2 ++ Begin p2 :: l3) /\
       (punctual_devices executeUntil ->
        queue_ok fired /\
        forall a b, fired = a ++ p2 :: b -> ~ In p1 b)) /\
  (progressive_devices executeUntil ->
   exists fuel s', run_schedule executeUntil fuel limit s = Done s').
Proof.
  intros Hok Hidle Hin1 Hin2 Hlt Hle. split.
  - intros fuel s' Hrun.
    destruct (due_front limit p2 s Hok Hin2 Hle) as (next & Hn & Hnle).
    destruct (run_schedule_Drained executeUntil fuel _ next s s' Hidle Hn Hnle Hrun)
      as (fired & s1 & Hd & ->).
    destruct (Drained_frame executeUntil _ _ fired s1 Hd eq_refl) as (_ & Htr & Hev & _).
    simpl in Htr, Hev. exists fired. simpl.
    split; [exact Htr|]. split; [exact Hev|]. split.
    + intros Hk1 Hk2.
      assert (Hbef : before p1 p2 fired).
      { apply (Drained_before executeUntil limit p1 p2 _ fired s1 Hk1 Hk2 Hle Hd eq_refl Hok).
        simpl. apply queue_ok_before; assumption. }
      destruct (callbacks_before p1 p2 fired Hbef) as (l1 & l2 & l3 & Hcb).
      exists l1, l2, l3. rewrite Hev, Hcb. reflexivity.
    + intros Hpunct.
      assert (Hlo : Forall (fun x => getTime x <= getTime x) (@nil SynchronizationPoint))
        by constructor.
      destruct (syncPoints s) as [|front rest] eqn:Hq; [destruct Hin1|].
      destruct (Drained_sorted executeUntil limit _ fired s1 Hpunct Hd (getTime front))
        as [_ Hsorted].
      * reflexivity.
      * simpl. rewrite Hq. exact Hok.
      * simpl. rewrite Hq. constructor; [lia|].
        exact (proj2 (queue_ok_inv front rest Hok)).
      * split; [exact Hsorted|].
        intros a b Hfired Hin. rewrite Hfired in Hsorted.
        pose proof (queue_ok_behind p2 a b Hsorted) as Hall.
        rewrite Forall_forall in Hall. specialize (Hall p1 Hin).
        unfold notLater in Hall. lia.
  - intros Hprog. apply run_schedule_returns; try assumption.
    intros He. rewrite He in Hin1. destruct Hin1.
Qed.

Lemma earlier_point_fires_first_witness :
  performAll trapHelper reverseCalls (idle [] 0) = Done (idle [pointB10; pointC20; pointA30] 0) /\
  (forall fuel s',
     run_schedule (timer 5) fuel 25 (idle [pointB10; pointC20; pointA30] 0) = Done s' ->
     exists fired,
       trace s' = fired /\
       events s' = callbacks fired /\
       (exists l1 l2 l3, events s' = l1 ++ End pointB10 :: l2 ++ Begin pointC20 :: l3) /\
       queue_ok fired /\
       forall a b, fired = a ++ pointC20 :: b -> ~ In pointB10 b) /\
  exists fuel s', run_schedule (timer 5) fuel 25 (idle [pointB10; pointC20; pointA30] 0) = Done s'.
Proof.
  split; [reflexivity|].
  destruct (earlier_point_fires_first (timer 5) 25 (idle [pointB10; pointC20; pointA30] 0)
              pointB10 pointC20) as [Horder Hreturns].
  - queue_ok_by_computation.
  - reflexivity.
  - simpl; tauto.
  - simpl; tauto.
  - simpl; lia.
  - simpl; lia.
  - split.
    + intros fuel s' Hrun.
      destruct (Horder fuel s' Hrun) as (fired & Htr & Hev & Hkept & Hpunct).
      exists fired. split; [exact Htr|]. split; [exact Hev|]. split.
      * apply Hkept; apply timer_keeps; reflexivity.
      * apply Hpunct. apply timer_punctual. lia.
    + apply Hreturns. apply timer_progressive. lia.
Defined.

Lemma nester_tame (nested limit again : EmuTime) :
  nested <= limit -> limit < again -> tame_devices true limit (nester nested again).
Proof.
  intros Hle Hlt d t u s c _ [<- | [<- | []]]; simpl.
  - apply Z.leb_le. exact Hle.
  - apply Z.ltb_lt. exact Hlt.
Qed.



(** The run of the witness above, spelled out.  B's callback for 10 calls
    [schedule 22] while the point at 20 is pending and due: the nested
    call fires nothing, and the point at 20 is fired by the outer loop
    once B's callback has returned. *)
Example nested_schedule_run :
  exists s',
    run_schedule (nester 22 100) 5 25 ladder = Done s' /\
    events s' = [Begin pointB10; End pointB10; Begin pointC20; End pointC20] /\
    trace s' = [pointB10; pointC20] /\
    In pointA30 (syncPoints s') /\
    In pointFar (syncPoints s') /\
    scheduleInProgress s' = false /\
    scheduleTime s' = 25.
Proof.
  eexists. split; [reflexivity|]. simpl.
  repeat split; tauto.
Qed.

(** C7.  [setSyncPoint] dies on its assertion exactly when the time is
    earlier than current time; nothing that follows the call runs then.
    Under the precondition the assertion holds and the point is pending
    afterwards, with current time and trace as before. *)
Theorem setSyncPoint_precondition (t : EmuTime) (d : Schedulable) (u : Z) (s : Scheduler) :
  (setSyncPoint t d u s = AssertionFailed <-> t < scheduleTime s) /\
  (t < scheduleTime s ->
   forall k : Scheduler -> outcome Scheduler,
     (s1 <- setSyncPoint t d u s ;; k s1) = AssertionFailed) /\
  (scheduleTime s <= t ->
   exists s',
     setSyncPoint t d u s = Done s' /\
     In (mkSynchronizationPoint t d u) (syncPoints s') /\
     scheduleTime s' = scheduleTime s /\
     trace s' = trace s).
Proof.
  unfold setSyncPoint.
  destruct (Z.ltb_spec t (scheduleTime s)) as [Hlt | Hge]; split; [|split| |split].
  - tauto.
  - reflexivity.
  - lia.
  - split; [discriminate | lia].
  - lia.
  - intros _. eexists. split; [reflexivity|]. simpl.
    split; [|split; reflexivity]. apply enqueue_In. left; reflexivity.
Qed.

Lemma setSyncPoint_precondition_witness :
  setSyncPoint 21 1%nat 0 (idle [pointA30] 22) = AssertionFailed /\
  exists s',
    setSyncPoint 22 1%nat 0 (idle [pointA30] 22) = Done s' /\
    In (mkSynchronizationPoint 22 1%nat 0) (syncPoints s') /\
    scheduleTime s' = 22 /\
    trace s' = [].
Proof.
  split.
  - apply (proj1 (setSyncPoint_precondition 21 1%nat 0 (idle [pointA30] 22))). simpl; lia.
  - apply (proj2 (proj2 (setSyncPoint_precondition 22 1%nat 0 (idle [pointA30] 22)))).
    simpl; lia.
Defined.

(** C9.  When some pending point matches [device] and [userdata],
    [removeSyncPoint] takes one matching point out of the queue and
    nothing else: the queue is one shorter, the points in front of and
    behind the removed one are as they were, the non-matching points are
    all still there in their order, and nothing else of the Scheduler
    changes. *)
Theorem removeSyncPoint_removes_one (device : Schedulable) (userdata : Z) (s : Scheduler) :
  (exists sp, In sp (syncPoints s) /\ matches device userdata sp = true) ->
  exists l1 x l2,
    syncPoints s = l1 ++ x :: l2 /\
    matches device userdata x = true /\
    syncPoints (removeSyncPoint device userdata s) = l1 ++ l2 /\
    S (length (syncPoints (removeSyncPoint device userdata s))) = length (syncPoints s) /\
    filter (fun sp => negb (matches device userdata sp))
           (syncPoints (removeSyncPoint device userdata s)) =
    filter (fun sp => negb (matches device userdata sp)) (syncPoints s) /\
    scheduleTime (removeSyncPoint device userdata s) = scheduleTime s /\
    scheduleInProgress (removeSyncPoint device userdata s) = scheduleInProgress s /\
    trace (removeSyncPoint device userdata s) = trace s.
Proof.
  intros Hex.
  destruct (eraseFirst_split (matches device userdata) (syncPoints s) Hex)
    as (l1 & x & l2 & Hq & Hx & _ & He).
  exists l1, x, l2. simpl. rewrite He, Hq.
  split; [reflexivity|]. split; [exact Hx|]. split; [reflexivity|]. split.
  - rewrite !length_app. simpl. lia.
  - split; [|repeat split].
    rewrite !filter_app. simpl. rewrite Hx. reflexivity.
Qed.

Lemma removeSyncPoint_removes_one_witness :
  exists l1 x l2,
    syncPoints scenario = l1 ++ x :: l2 /\
    matches 1%nat 1 x = true /\
    syncPoints (removeSyncPoint 1%nat 1 scenario) = l1 ++ l2 /\
    S (length (syncPoints (removeSyncPoint 1%nat 1 scenario))) = length (syncPoints scenario) /\
    filter (fun sp => negb (matches 1%nat 1 sp)) (syncPoints (removeSyncPoint 1%nat 1 scenario)) =
    filter (fun sp => negb (matches 1%nat 1 sp)) (syncPoints scenario) /\
    scheduleTime (removeSyncPoint 1%nat 1 scenario) = scheduleTime scenario /\
    scheduleInProgress (removeSyncPoint 1%nat 1 scenario) = scheduleInProgress scenario /\
    trace (removeSyncPoint 1%nat 1 scenario) = trace scenario.
Proof.
  apply (removeSyncPoint_removes_one 1%nat 1 scenario).
  exists pointA10. split; [simpl; tauto | reflexivity].
Defined.

(** ** The interface as a whole *)

(** Every call of the interface, made with whatever devices and from
    inside or outside a drain, that returns leaves a time-ordered queue
    time-ordered. *)
Theorem interface_keeps_time_order (executeUntil : Devices) (fuel : nat)
    (c : Call) (s s' : Scheduler) :
  perform (scheduleHelper executeUntil fuel) c s = Done s' ->
  queue_ok (syncPoints s) ->
  queue_ok (syncPoints s').
Proof.
  apply perform_keeps_order. intros limit.
  apply guarded_keeps_order. apply drain_keeps_order.
Qed.

Lemma interface_keeps_time_order_witness :
  queue_ok [pointA30; mkSynchronizationPoint 100 2%nat 0; mkSynchronizationPoint 100 1%nat 1].
Proof.
  apply (interface_keeps_time_order (reentrant 100) 4 (CallSchedule 25) scenario
           {| syncPoints := [pointA30; mkSynchronizationPoint 100 2%nat 0;
                             mkSynchronizationPoint 100 1%nat 1];
              scheduleTime := 25; cpu := None; scheduleInProgress := false;
              trace := [pointB10; pointA10];
          events := callbacks [pointB10; pointA10] |}).
  - reflexivity.
  - queue_ok_by_computation.
Defined.

(** ** Further facts about the inline code *)

(** With no pending point [schedule] is undefined behaviour, whatever the
    limit and the helper: its guard reads [front()] of an empty vector. *)
Theorem schedule_on_empty_queue
    (helper : EmuTime -> Scheduler -> outcome Scheduler) (limit : EmuTime) (s : Scheduler) :
  syncPoints s = [] -> schedule helper limit s = Undefined.
Proof. apply schedule_empty. Qed.

Lemma schedule_on_empty_queue_witness :
  schedule trapHelper 5 (idle [] 0) = Undefined.
Proof. apply (schedule_on_empty_queue trapHelper 5 (idle [] 0)). reflexivity. Defined.

(** The scenario of the spec's section 8 with devices that make no calls:
    [schedule 25] makes the two callbacks for time 10 in queue order,
    leaves A's point at 30 pending, and records 25; [getNext] is then 30. *)
Theorem scenario_run :
  run_schedule passive 4 25 scenario =
  Done {| syncPoints := [pointA30]; scheduleTime := 25; cpu := None;
          scheduleInProgress := false; trace := [pointB10; pointA10];
          events := callbacks [pointB10; pointA10] |} /\
  (s' <- run_schedule passive 4 25 scenario ;; getNext s') = Done 30.
Proof. split; reflexivity. Qed.

(** On the fast path the last limit wins: two calls of [schedule] with
    limits before the earliest pending point leave the Scheduler as the
    second call alone does, and [getNext] is what it was. *)
Theorem fast_path_last_limit_wins
    (helper : EmuTime -> Scheduler -> outcome Scheduler)
    (first second next : EmuTime) (s : Scheduler) :
  getNext s = Done next ->
  first < next ->
  second < next ->
  (s1 <- schedule helper first s ;; schedule helper second s1) = schedule helper second s /\
  (s1 <- schedule helper first s ;; getNext s1) = Done next.
Proof.
  intros Hn H1 H2.
  rewrite (schedule_fast helper first next s Hn H1). simpl.
  assert (Hn1 : getNext (withScheduleTime first s) = Done next) by exact Hn.
  rewrite (schedule_fast helper second next _ Hn1 H2).
  rewrite (schedule_fast helper second next s Hn H2).
  split; [reflexivity | exact Hn].
Qed.

Lemma fast_path_last_limit_wins_witness :
  (s1 <- schedule trapHelper 3 scenario ;; schedule trapHelper 7 s1) =
  schedule trapHelper 7 scenario /\
  (s1 <- schedule trapHelper 3 scenario ;; getNext s1) = Done 10.
Proof.
  apply (fast_path_last_limit_wins trapHelper 3 7 10 scenario).
  - reflexivity.
  - lia.
  - lia.
Defined.

(** The guard of [schedule] never overlooks a due point.  In a non-empty,
    heap-ordered vector a pending point that is due at [limit] may sit
    anywhere; the front is then due as well, so [schedule limit] enters
    [scheduleHelper] (with the state as it was on entry) and records
    [limit] on its return. *)
Theorem due_point_enters_helper
    (helper : EmuTime -> Scheduler -> outcome Scheduler)
    (limit : EmuTime) (s : Scheduler) (sp : SynchronizationPoint) :
  heap_ordered (syncPoints s) ->
  In sp (syncPoints s) ->
  getTime sp <= limit ->
  exists next,
    getNext s = Done next /\
    next <= getTime sp /\
    schedule helper limit s = (s1 <- helper limit s ;; Done (withScheduleTime limit s1)).
Proof.
  intros Hheap Hin Hdue.
  destruct (syncPoints s) as [|front rest] eqn:Hq; [destruct Hin|].
  pose proof (getNext_front s front rest Hq) as Hn.
  assert (Hle : getTime front <= getTime sp).
  { apply In_nth_error in Hin. destruct Hin as [i Hi].
    exact (heap_front_le (front :: rest) front Hheap eq_refl i sp Hi). }
  exists (getTime front). split; [exact Hn|]. split; [exact Hle|].
  apply (schedule_slow helper limit (getTime front) s Hn). lia.
Qed.

Lemma due_point_enters_helper_witness :
  exists next,
    getNext (idle [pointB10; pointA30; pointA10] 0) = Done next /\
    next <= getTime pointA10 /\
    schedule trapHelper 12 (idle [pointB10; pointA30; pointA10] 0) =
    (s1 <- trapHelper 12 (idle [pointB10; pointA30; pointA10] 0) ;;
     Done (withScheduleTime 12 s1)).
Proof.
  apply (due_point_enters_helper trapHelper 12 (idle [pointB10; pointA30; pointA10] 0) pointA10).
  - exact heap_example.
  - simpl; tauto.
  - simpl; lia.
Defined.
